(** * Label name/ID resolution of forgejo-mcp (package [label])

    A shallow embedding of [pkg/label/resolver.go] and of the error type of
    the same package, with the properties of the resolver proved about it.

    Go strings are byte strings and are modelled as [string] (a list of
    8-bit [ascii]); [int64] label IDs are modelled as [Z] (no arithmetic is
    done on them, so no wrap-around arises); Go maps are [gmap]s; slices are
    lists, a [nil] slice being the empty list. *)

From Stdlib Require Import ZArith Ascii String List Lia.
From stdpp Require Import base option list gmap strings fin_maps.

Local Open Scope Z_scope.

(** ** The Go library functions the package calls *)

(** The parts of [strings.ToLower] and [strings.TrimSpace] that depend on
    the Unicode tables.  Both functions have a path for strings made of
    ASCII bytes only, which is embedded below as it is, and fall back on the
    Unicode tables as soon as they meet a byte [>= utf8.RuneSelf]; the
    fallbacks are left abstract. *)
Class GoUnicode := {
  (** [strings.Map(unicode.ToLower, s)] *)
  unicodeToLower : string → string;
  (** [strings.TrimFunc(s, unicode.IsSpace)] *)
  unicodeTrimFunc : string → string;
  (** [strings.TrimRightFunc(s, unicode.IsSpace)] *)
  unicodeTrimRightFunc : string → string
}.

(** An instance that leaves strings with bytes above 127 alone, to run the
    definitions on concrete ASCII inputs (where the instance is never
    consulted). *)
Definition asciiOnly : GoUnicode :=
  {| unicodeToLower := id; unicodeTrimFunc := id; unicodeTrimRightFunc := id |}.

Module GoStrings.

(** [c >= utf8.RuneSelf] *)
Definition runeSelf (c : ascii) : bool := (128 <=? Z.of_N (N_of_ascii c)).

Fixpoint isASCII (s : string) : bool :=
  match s with
  | EmptyString => true
  | String c s' => negb (runeSelf c) && isASCII s'
  end.

(** ['A' <= c && c <= 'Z'] and [c += 'a' - 'A'] *)
Definition lowerByte (c : ascii) : ascii :=
  let n := Z.of_N (N_of_ascii c) in
  if (65 <=? n) && (n <=? 90) then ascii_of_N (Z.to_N (n + 32)) else c.

Fixpoint mapBytes (f : ascii → ascii) (s : string) : string :=
  match s with
  | EmptyString => EmptyString
  | String c s' => String (f c) (mapBytes f s')
  end.

(** [strings.ToLower] *)
Definition ToLower `{GoUnicode} (s : string) : string :=
  if isASCII s then mapBytes lowerByte s else unicodeToLower s.

(** The first loop of [strings.TrimSpace]: the result is [inl] of the
    string from the first ASCII non-space byte on, or [inr] of the value
    returned from inside the loop at a non-ASCII byte. *)
Fixpoint trimStart `{GoUnicode} (s : string) : string + string :=
  match s with
  | EmptyString => inl EmptyString
  | String c s' =>
      if runeSelf c then inr (unicodeTrimFunc s)
      else if Ascii.is_space c then trimStart s'
      else inl s
  end.

(** The second loop of [strings.TrimSpace], run on the reversed string
    [r] (so that [s[stop-1]] is its head). *)
Fixpoint trimStop `{GoUnicode} (r : string) : string :=
  match r with
  | EmptyString => EmptyString
  | String c r' =>
      if runeSelf c then unicodeTrimRightFunc (String.rev r)
      else if Ascii.is_space c then trimStop r'
      else String.rev r
  end.

(** [strings.TrimSpace] *)
Definition TrimSpace `{GoUnicode} (s : string) : string :=
  match trimStart s with
  | inr t => t
  | inl t => trimStop (String.rev t)
  end.

(** [strings.HasPrefix] *)
Fixpoint HasPrefix (s prefix : string) : bool :=
  match prefix, s with
  | EmptyString, _ => true
  | String _ _, EmptyString => false
  | String p prefix', String c s' =>
      if decide (c = p) then HasPrefix s' prefix' else false
  end.

(** [strings.Contains(s, substr)]: [substr] occurs in [s]. *)
Fixpoint Contains (s substr : string) : bool :=
  HasPrefix s substr ||
  match s with
  | EmptyString => false
  | String _ s' => Contains s' substr
  end.

(** What [strings.Contains] decides. *)
Definition substring_of (sub s : string) : Prop :=
  ∃ pre post, s = pre +:+ sub +:+ post.

End GoStrings.

Module GoStrconv.

Definition digit (c : ascii) : option Z :=
  let n := Z.of_N (N_of_ascii c) in
  if (48 <=? n) && (n <=? 57) then Some (n - 48) else None.

(** The digit loop of [strconv.ParseUint] in base 10, without the
    64-bit cut-off: the value is accumulated in [Z], and [ParseInt] below
    rejects what does not fit. *)
Fixpoint digits (s : string) (acc : Z) : option Z :=
  match s with
  | EmptyString => Some acc
  | String c s' =>
      match digit c with
      | Some d => digits s' (acc * 10 + d)
      | None => None
      end
  end.

Definition ParseUint (s : string) : option Z :=
  match s with
  | EmptyString => None
  | _ => digits s 0
  end.

Definition cutoff : Z := 2 ^ 63.

(** [strconv.ParseInt(s, 10, 64)]: [Some n] when the error is [nil],
    [None] on a syntax or a range error (the caller ignores the value
    returned with an error). *)
Definition ParseInt (s : string) : option Z :=
  match s with
  | EmptyString => None
  | String c s' =>
      let '(neg, s1) :=
        if decide (c = "+"%char) then (false, s')
        else if decide (c = "-"%char) then (true, s')
        else (false, s) in
      match ParseUint s1 with
      | None => None
      | Some un =>
          if negb neg && (cutoff <=? un) then None
          else if neg && (cutoff <? un) then None
          else Some (if neg then - un else un)
      end
  end.

End GoStrconv.

Import GoStrings GoStrconv.

(** ** Data model (package [label]) *)

(** [forgejo_models.Label], restricted to the two fields the resolver reads. *)
Record Label := { label_ID : Z; label_Name : string }.

(** [ResolvedLabel] *)
Record ResolvedLabel := { ID : Z; Name : string }.

(** [LabelResolutionError] *)
Record LabelResolutionError := {
  Input : string;
  Reason : string;
  Suggestions : list string
}.

(** [NewResolutionError] *)
Definition NewResolutionError (input reason : string) (suggestions : list string)
  : LabelResolutionError :=
  {| Input := input; Reason := reason; Suggestions := suggestions |}.

(** The loop of [formatSuggestions]: [i] is the index of the head of
    [suggestions], [result] the string built so far. *)
Fixpoint formatSuggestions_loop (i : nat) (result : string) (suggestions : list string)
  : string :=
  match suggestions with
  | [] => result
  | s :: rest =>
      let result := if (0 <? i)%nat then result +:+ ", " else result in
      formatSuggestions_loop (S i) (result +:+ s) rest
  end.

(** [formatSuggestions] *)
Definition formatSuggestions (suggestions : list string) : string :=
  if decide (length suggestions = 0%nat) then ""
  else formatSuggestions_loop 0 "" suggestions.

(** The method [Error] of [LabelResolutionError]; [fmt.Sprintf] with [%s] verbs only
    is concatenation. *)
Definition Error (e : LabelResolutionError) : string :=
  if decide (0 < length (Suggestions e))%nat then
    "label '" +:+ Input e +:+ "' " +:+ Reason e +:+ ". Did you mean: "
      +:+ formatSuggestions (Suggestions e) +:+ "?"
  else
    "label '" +:+ Input e +:+ "' " +:+ Reason e.

(** The values of Go's [error] interface that the resolver returns: an
    error made by [fmt.Errorf], given by its message, or a
    [*LabelResolutionError]. *)
Inductive error :=
  | Errorf (msg : string)
  | ResolutionError (e : LabelResolutionError).

(** [cachedLabels] *)
Record cachedLabels := {
  nameToID : gmap string Z;
  idToName : gmap Z string
}.

(** [labelResolverImpl]: the cache, and beside it the requests sent to the
    forge so far ([apiCalls] is not a field of the Go struct: it records the
    calls of [forgejo.Client().ListRepoLabels], each with its owner and
    repository).  The mutex [mu] is left out of the sequential embedding; it
    appears in the module [Concurrent] below. *)
Record labelResolverImpl := {
  cache : gmap string cachedLabels;
  apiCalls : list (string * string)
}.

(** [NewLabelResolver] *)
Definition NewLabelResolver : labelResolverImpl :=
  {| cache := ∅; apiCalls := [] |}.

(** The forge's label listing, [forgejo.Client().ListRepoLabels(owner,
    repo, {Page: 1, PageSize: 100})]: the labels of the first page (the
    SDK returns no [nil] element), or the message of the error. *)
Definition Client := string → string → string + list Label.

(** The order in which a [for name := range nameToID] statement visits the
    keys of a map, which Go leaves unspecified. *)
Definition RangeOrder := gmap string Z → list string.

(** What Go guarantees of it: every key is visited once. *)
Definition range_valid (range : RangeOrder) : Prop :=
  ∀ m, range m ≡ₚ (map_to_list m).*1.

(** A range order to run the definitions with. *)
Definition rangeDefault : RangeOrder := λ m, (map_to_list m).*1.

(** ** The resolver *)

(** The cache key, [fmt.Sprintf("%s/%s", owner, repo)]. *)
Definition cacheKey (owner repo : string) : string := owner +:+ "/" +:+ repo.

Section Resolver.
Context `{GoUnicode}.

(** The loop of [fetchRepositoryLabels] that builds both maps, one
    iteration. *)
Definition buildLabelMaps_step (c : cachedLabels) (label : Label) : cachedLabels :=
  {| nameToID := <[ToLower (label_Name label) := label_ID label]> (nameToID c);
     idToName := <[label_ID label := label_Name label]> (idToName c) |}.

Definition buildLabelMaps (labels : list Label) : cachedLabels :=
  fold_left buildLabelMaps_step labels {| nameToID := ∅; idToName := ∅ |}.

(** [fetchRepositoryLabels]: the two maps or the error, and the resolver
    after the call.  Both cache checks of the Go function are kept (the
    one under the read lock and the one under the write lock). *)
Definition fetchRepositoryLabels (client : Client) (p : labelResolverImpl)
    (owner repo : string) : (error + cachedLabels) * labelResolverImpl :=
  let key := cacheKey owner repo in
  match cache p !! key with
  | Some cached => (inr cached, p)
  | None =>
      match cache p !! key with
      | Some cached => (inr cached, p)
      | None =>
          let p := {| cache := cache p; apiCalls := apiCalls p ++ [(owner, repo)] |} in
          match client owner repo with
          | inl err => (inl (Errorf ("failed to list labels: " +:+ err)), p)
          | inr labels =>
              let c := buildLabelMaps labels in
              (inr c, {| cache := <[key := c]> (cache p); apiCalls := apiCalls p |})
          end
      end
  end.

(** [lookupByName] *)
Definition lookupByName (labelMap : gmap string Z) (name : string) : option Z :=
  labelMap !! ToLower name.

(** [findNameByID] *)
Definition findNameByID (idToName : gmap Z string) (id : Z) : string :=
  match idToName !! id with
  | Some name => name
  | None => ""
  end.

(** [getSuggestions]; [range] gives the order of the iteration over the
    map. *)
Definition getSuggestions (range : RangeOrder) (nameToID : gmap string Z)
    (input : string) : list string :=
  let inputLower := ToLower input in
  let suggestions :=
    filter (λ name, Contains name inputLower || Contains inputLower name = true)
           (range nameToID) in
  if decide (3 < length suggestions)%nat then take 3 suggestions else suggestions.

(** The body of the loop of [ResolveLabelIDs] for one element of
    [labels]: the error returned from inside the loop, or the ID and the
    [ResolvedLabel] appended to the two result slices. *)
Definition resolveToken (range : RangeOrder) (owner repo : string)
    (c : cachedLabels) (labelStr : string)
    : LabelResolutionError + (Z * ResolvedLabel) :=
  let labelStr := TrimSpace labelStr in
  if decide (labelStr = "") then
    inl (NewResolutionError "" "empty label not allowed" [])
  else
    match ParseInt labelStr with
    | Some labelID =>
        if decide (labelID ≤ 0) then
          inl (NewResolutionError labelStr "ID must be positive" [])
        else
          let name := findNameByID (idToName c) labelID in
          if decide (name ≠ "") then inr (labelID, {| ID := labelID; Name := name |})
          else inr (labelID, {| ID := labelID; Name := labelStr |})
    | None =>
        match lookupByName (nameToID c) labelStr with
        | None =>
            let suggestions := getSuggestions range (nameToID c) labelStr in
            inl (NewResolutionError labelStr
                   ("not found in repository " +:+ owner +:+ "/" +:+ repo)
                   suggestions)
        | Some labelID => inr (labelID, {| ID := labelID; Name := labelStr |})
        end
    end.

(** The loop of [ResolveLabelIDs] over [labels], with the two slices
    built so far. *)
Fixpoint resolveLoop (range : RangeOrder) (owner repo : string) (c : cachedLabels)
    (labels : list string) (labelIDs : list Z) (resolvedLabels : list ResolvedLabel)
    : list Z * list ResolvedLabel * option error :=
  match labels with
  | [] => (labelIDs, resolvedLabels, None)
  | labelStr :: rest =>
      match resolveToken range owner repo c labelStr with
      | inl e => ([], [], Some (ResolutionError e))
      | inr (labelID, resolved) =>
          resolveLoop range owner repo c rest
            (labelIDs ++ [labelID]) (resolvedLabels ++ [resolved])
      end
  end.

(** The method [Error] of the interface [error]. *)
Definition error_Error (err : error) : string :=
  match err with
  | Errorf msg => msg
  | ResolutionError e => Error e
  end.

(** [ResolveLabelIDs] from the return of [fetchRepositoryLabels] on: the
    check of [err] and the loop. *)
Definition resolveFetched (range : RangeOrder) (owner repo : string)
    (labels : list string) (fetched : error + cachedLabels)
    : list Z * list ResolvedLabel * option error :=
  match fetched with
  | inl err =>
      ([], [], Some (Errorf ("failed to fetch repository labels: " +:+ error_Error err)))
  | inr c => resolveLoop range owner repo c labels [] []
  end.

(** [ResolveLabelIDs]: the three results and the resolver after the
    call. *)
Definition ResolveLabelIDs (client : Client) (range : RangeOrder)
    (p : labelResolverImpl) (owner repo : string) (labels : list string)
    : (list Z * list ResolvedLabel * option error) * labelResolverImpl :=
  let '(fetched, p) := fetchRepositoryLabels client p owner repo in
  (resolveFetched range owner repo labels fetched, p).

(** [ClearCache] *)
Definition ClearCache (p : labelResolverImpl) : labelResolverImpl :=
  {| cache := ∅; apiCalls := apiCalls p |}.

(** [GetCacheSize] *)
Definition GetCacheSize (p : labelResolverImpl) : nat := size (cache p).

End Resolver.

(** ** Goroutines sharing one resolver

    [fetchRepositoryLabels] is the only code that touches the shared cache.
    Each goroutine that calls [ResolveLabelIDs] is followed through the
    program points of that function at which it takes or releases the
    mutex, reads or writes the cache, or calls the forge; a schedule picks
    the goroutine that takes the next step. *)
Module Concurrent.
Section Concurrent.
Context `{GoUnicode}.

(** [sync.RWMutex]: held by a writer, or by a number of readers.  [RLock]
    waits while a writer holds the mutex, [Lock] while a writer or a reader
    does.  (Go also holds back [RLock] while a goroutine waits in [Lock];
    without that rule the schedules below are more than Go's, and what holds
    of all of them holds of Go's.) *)
Record RWMutex := { writer : bool; readers : nat }.

(** [labelResolverImpl], with its mutex. *)
Record labelResolverImpl := {
  cache : gmap string cachedLabels;
  mu : RWMutex
}.

(** Where a goroutine stands in [ResolveLabelIDs]. *)
Inductive pc :=
  | AtRLock                           (* before [p.mu.RLock()] *)
  | AtReadCheck                       (* before the cache check under the read lock *)
  | AtRUnlockHit (cached : cachedLabels)  (* before [RUnlock] and the return of the hit *)
  | AtRUnlockMiss                     (* before [RUnlock] after the miss *)
  | AtLock                            (* before [p.mu.Lock()] *)
  | AtRecheck                         (* before the cache check under the write lock *)
  | AtListRepoLabels                  (* before the call of the forge *)
  | AtStore (labels : list Label)     (* before the maps are built and cached *)
  | AtUnlock (fetched : error + cachedLabels)  (* before the deferred [Unlock] *)
  | AtLoop (fetched : error + cachedLabels)    (* back in [ResolveLabelIDs] *)
  | Done (result : list Z * list ResolvedLabel * option error).

(** A call of [ResolveLabelIDs] in progress. *)
Record goroutine := {
  g_owner : string;
  g_repo : string;
  g_labels : list string;
  g_range : RangeOrder;
  g_pc : pc
}.

(** A call of [ListRepoLabels] that the forge has answered. *)
Record request := { req_owner : string; req_repo : string; req_ok : bool }.

Record state := {
  resolver : labelResolverImpl;
  forge : list request;
  goroutines : list goroutine
}.

Definition at_pc (g : goroutine) (l : pc) : goroutine :=
  {| g_owner := g_owner g; g_repo := g_repo g; g_labels := g_labels g;
     g_range := g_range g; g_pc := l |}.

Definition with_mu (p : labelResolverImpl) (m : RWMutex) : labelResolverImpl :=
  {| cache := cache p; mu := m |}.

(** One step of goroutine [i]; [resp] is what the forge answers if the
    step is the call of [ListRepoLabels].  [None]: there is no such
    goroutine, it has returned, or it is blocked on the mutex. *)
Definition step (s : state) (i : nat) (resp : string + list Label) : option state :=
  g ← goroutines s !! i;
  let p := resolver s in
  let key := cacheKey (g_owner g) (g_repo g) in
  let goto (l : pc) (p' : labelResolverImpl) (log : list request) :=
    Some {| resolver := p'; forge := log;
            goroutines := <[i := at_pc g l]> (goroutines s) |} in
  match g_pc g with
  | AtRLock =>
      if writer (mu p) then None
      else goto AtReadCheck
             (with_mu p {| writer := false; readers := S (readers (mu p)) |}) (forge s)
  | AtReadCheck =>
      match cache p !! key with
      | Some cached => goto (AtRUnlockHit cached) p (forge s)
      | None => goto AtRUnlockMiss p (forge s)
      end
  | AtRUnlockHit cached =>
      goto (AtLoop (inr cached))
        (with_mu p {| writer := writer (mu p); readers := pred (readers (mu p)) |}) (forge s)
  | AtRUnlockMiss =>
      goto AtLock
        (with_mu p {| writer := writer (mu p); readers := pred (readers (mu p)) |}) (forge s)
  | AtLock =>
      if writer (mu p) then None
      else if Nat.eqb (readers (mu p)) 0
      then goto AtRecheck (with_mu p {| writer := true; readers := 0 |}) (forge s)
      else None
  | AtRecheck =>
      match cache p !! key with
      | Some cached => goto (AtUnlock (inr cached)) p (forge s)
      | None => goto AtListRepoLabels p (forge s)
      end
  | AtListRepoLabels =>
      let answered ok :=
        forge s ++ [{| req_owner := g_owner g; req_repo := g_repo g; req_ok := ok |}] in
      match resp with
      | inl err =>
          goto (AtUnlock (inl (Errorf ("failed to list labels: " +:+ err)))) p
               (answered false)
      | inr labels => goto (AtStore labels) p (answered true)
      end
  | AtStore labels =>
      let c := buildLabelMaps labels in
      goto (AtUnlock (inr c)) {| cache := <[key := c]> (cache p); mu := mu p |} (forge s)
  | AtUnlock fetched =>
      goto (AtLoop fetched)
        (with_mu p {| writer := false; readers := readers (mu p) |}) (forge s)
  | AtLoop fetched =>
      goto (Done (resolveFetched (g_range g) (g_owner g) (g_repo g) (g_labels g) fetched))
        p (forge s)
  | Done _ => None
  end.

(** A schedule: which goroutine steps next, and the forge's answer. *)
Definition schedule := list (nat * (string + list Label)).

Fixpoint run (s : state) (sched : schedule) : option state :=
  match sched with
  | [] => Some s
  | (i, resp) :: rest => s' ← step s i resp; run s' rest
  end.

(** A call that is about to start. *)
Definition call (range : RangeOrder) (owner repo : string) (labels : list string)
  : goroutine :=
  {| g_owner := owner; g_repo := repo; g_labels := labels; g_range := range;
     g_pc := AtRLock |}.

(** The resolver with cache [c] and a free mutex, no request sent yet,
    and the calls [gs] about to start. *)
Definition start (c : gmap string cachedLabels) (gs : list goroutine) : state :=
  {| resolver := {| cache := c; mu := {| writer := false; readers := 0 |} |};
     forge := []; goroutines := gs |}.

Definition for_key (k : string) (r : request) : bool :=
  bool_decide (cacheKey (req_owner r) (req_repo r) = k).

(** The requests sent to the forge for the cache key [k], and those
    among them that the forge answered with a label list. *)
Definition fetches (k : string) (s : state) : nat :=
  length (List.filter (for_key k) (forge s)).

Definition fetches_ok (k : string) (s : state) : nat :=
  length (List.filter (λ r, for_key k r && req_ok r) (forge s)).

Definition fetches_failed (k : string) (s : state) : nat :=
  length (List.filter (λ r, for_key k r && negb (req_ok r)) (forge s)).

End Concurrent.
End Concurrent.

(** ** Comma-separated filters (package [runner]) *)

(** [strings.Split(s, sep)] for a separator of one byte: the pieces of [s]
    between the occurrences of [sep], one more than there are occurrences
    (the empty string has the one piece [""]). *)
Fixpoint Split (s : string) (sep : ascii) : list string :=
  match s with
  | EmptyString => [EmptyString]
  | String c s' =>
      if decide (c = sep) then EmptyString :: Split s' sep
      else
        match Split s' sep with
        | piece :: pieces => String c piece :: pieces
        | [] => [String c EmptyString]
        end
  end.

Section Runner.
Context `{GoUnicode}.

(** The loop of [parseStringList] over [parts], with the slice built so
    far. *)
Fixpoint parseStringList_loop (parts : list string) (result : list string)
  : list string :=
  match parts with
  | [] => result
  | part :: rest =>
      let trimmed := TrimSpace part in
      if decide (trimmed ≠ "") then parseStringList_loop rest (result ++ [trimmed])
      else parseStringList_loop rest result
  end.

(** [parseStringList] (the [nil] it returns for the empty string and the
    empty slice it can return otherwise are both the empty list). *)
Definition parseStringList (s : string) : list string :=
  if decide (s = "") then []
  else parseStringList_loop (Split s ","%char) [].

(** The [Labels] filter that [SearchRunnerJobsFn] sends to the forge for
    its argument [labels]; [ListActionRunsFn] computes its [Status] and
    [Events] filters in the same way. *)
Definition SearchRunnerJobsFn_Labels (labels : string) : list string :=
  if decide (labels ≠ "") then parseStringList labels else [].

(** The [Labels] filter that [SearchOrgRunnerJobsFn] and
    [SearchUserRunnerJobsFn] send to the forge for their argument
    [labels]: the pieces are trimmed in place, none is dropped. *)
Definition SearchOrgRunnerJobsFn_Labels (labelsStr : string) : list string :=
  if decide (labelsStr ≠ "") then TrimSpace <$> Split labelsStr ","%char else [].

End Runner.

(** * Vocabulary of the properties *)

(** The suggestions after the first one, each behind its separator. *)
Fixpoint separated (suggestions : list string) : string :=
  match suggestions with
  | [] => ""
  | s :: rest => ", " +:+ s +:+ separated rest
  end.

(** The message as the specification words it: with suggestions, the
    message without them followed by [ Did you mean: ...?]. *)
Definition rendered_as_specified (e : LabelResolutionError) : string :=
  let plain := "label '" +:+ Input e +:+ "' " +:+ Reason e in
  match Suggestions e with
  | [] => plain
  | _ => plain +:+ " Did you mean: " +:+ String.concat ", " (Suggestions e) +:+ "?"
  end.

(** The string is made of ASCII white space only. *)
Fixpoint allSpaces (s : string) : bool :=
  match s with
  | EmptyString => true
  | String c s' => Ascii.is_space c && allSpaces s'
  end.

Section Vocabulary.
Context `{GoUnicode}.

(** No two fetched labels with different IDs have the same lowercased
    name. *)
Definition lower_names_unique (labels : list Label) : Prop :=
  ∀ l1 l2, l1 ∈ labels → l2 ∈ labels →
    ToLower (label_Name l1) = ToLower (label_Name l2) → label_ID l1 = label_ID l2.

(** The consistency the specification words: every ID→name entry is
    found back under its lowercased name, and every name→ID entry's ID is
    in the ID→name map. *)
Definition consistent_as_specified (c : cachedLabels) : Prop :=
  (∀ id name, idToName c !! id = Some name → nameToID c !! ToLower name = Some id) ∧
  (∀ name id, nameToID c !! name = Some id → is_Some (idToName c !! id)).

(** What holds of the two maps built from the fetched [labels]. *)
Definition consistent_last_wins (labels : list Label) (c : cachedLabels) : Prop :=
  (∀ name id, nameToID c !! name = Some id → is_Some (idToName c !! id)) ∧
  (∀ id name, idToName c !! id = Some name →
     ∃ l, last (filter (λ l, ToLower (label_Name l) = ToLower name) labels) = Some l ∧
          nameToID c !! ToLower name = Some (label_ID l)) ∧
  (lower_names_unique labels → consistent_as_specified c).

(** Every entry of the cache is a pair of maps built from a label list. *)
Definition cache_built (p : labelResolverImpl) : Prop :=
  ∀ key c, cache p !! key = Some c → ∃ labels, c = buildLabelMaps labels.

(** The display name of a numeric token: the catalog's name for the ID
    when there is one and it is not the empty string, else the token as
    typed. *)
Definition numericName (c : cachedLabels) (id : Z) (labelStr : string) : string :=
  match idToName c !! id with
  | Some name => if decide (name = "") then labelStr else name
  | None => labelStr
  end.

(** The display name as the specification words it: the catalog's name
    whenever the ID is in the ID→name map. *)
Definition numericName_as_specified (c : cachedLabels) (id : Z) (labelStr : string)
  : string :=
  match idToName c !! id with
  | Some name => name
  | None => labelStr
  end.

(** A token that resolves: after trimming, it parses as a decimal 64-bit
    integer above zero, or it is not empty, does not parse as one, and
    its lowercase is a key of the name→ID map. *)
Definition token_resolves (c : cachedLabels) (tok : string) : Prop :=
  let s := TrimSpace tok in
  (∃ n, ParseInt s = Some n ∧ 0 < n) ∨
  (s ≠ "" ∧ ParseInt s = None ∧ is_Some (nameToID c !! ToLower s)).

(** The same as the specification words it: a positive decimal ID, or a
    name of the catalog in any casing. *)
Definition token_resolves_as_specified (c : cachedLabels) (tok : string) : Prop :=
  let s := TrimSpace tok in
  (∃ n, ParseInt s = Some n ∧ 0 < n) ∨ is_Some (nameToID c !! ToLower s).

(** One entry per token, in the order of the tokens. *)
Definition entry_per_token (range : RangeOrder) (owner repo : string)
    (c : cachedLabels) (labels : list string)
    (ids : list Z) (rls : list ResolvedLabel) : Prop :=
  length ids = length labels ∧ length rls = length labels ∧
  ∀ i tok, labels !! i = Some tok →
    ∃ id rl, ids !! i = Some id ∧ rls !! i = Some rl ∧
             resolveToken range owner repo c tok = inr (id, rl).

(** The test of [getSuggestions] on one key. *)
Definition suggested (input name : string) : Prop :=
  Contains name (ToLower input) || Contains (ToLower input) name = true.

#[global] Instance suggested_dec (input name : string) : Decision (suggested input name).
Proof. unfold suggested. apply _. Defined.

(** Symmetric containment: the lowercased input is a substring of the
    key, or the key is a substring of the lowercased input. *)
Definition contained (input name : string) : Prop :=
  substring_of (ToLower input) name ∨ substring_of name (ToLower input).

(** The keys of the map that pass the test, in the order of
    [map_to_list]. *)
Definition matching_keys (m : gmap string Z) (input : string) : list string :=
  filter (suggested input) (map_to_list m).*1.

End Vocabulary.

Section RaceVocabulary.
Import Concurrent.

Definition key_of (g : goroutine) : string := cacheKey (g_owner g) (g_repo g).

(** The goroutine holds the write lock. *)
Definition holds_lock (g : goroutine) : Prop :=
  match g_pc g with
  | AtRecheck | AtListRepoLabels | AtStore _ | AtUnlock _ => True
  | _ => False
  end.

(** The goroutine has found no entry for its key under the write lock and
    has not yet stored one. *)
Definition missed (g : goroutine) : Prop :=
  match g_pc g with
  | AtListRepoLabels | AtStore _ => True
  | _ => False
  end.

(** The goroutine has the forge's labels and is about to cache them. *)
Definition storing (g : goroutine) : Prop :=
  match g_pc g with
  | AtStore _ => True
  | _ => False
  end.

(** What every schedule keeps true, from a cache [c0] on. *)
Record invariant (c0 : gmap string cachedLabels) (s : state) : Prop := {
  inv_writer : ∀ i g,
    goroutines s !! i = Some g → holds_lock g → writer (mu (resolver s)) = true;
  inv_mutex : ∀ i j gi gj,
    goroutines s !! i = Some gi → goroutines s !! j = Some gj →
    holds_lock gi → holds_lock gj → i = j;
  inv_missed : ∀ i g,
    goroutines s !! i = Some g → missed g → cache (resolver s) !! key_of g = None;
  inv_once : ∀ k,
    (fetches_ok k s ≤ 1)%nat ∧
    (fetches_ok k s = 1%nat →
     is_Some (cache (resolver s) !! k) ∨
     ∃ i g, goroutines s !! i = Some g ∧ storing g ∧ key_of g = k);
  inv_cached : ∀ k,
    is_Some (c0 !! k) → is_Some (cache (resolver s) !! k) ∧ fetches k s = 0%nat
}.

End RaceVocabulary.

(** ** Concrete inputs *)

(** The iteration over a map in the opposite order. *)
Definition rangeReversed : RangeOrder := λ m, reverse (rangeDefault m).

(** The forge of the examples: one repository, with the labels [labels]. *)
Definition forgeWith (labels : list Label) : Client := λ _ _, inr labels.

(** A forge with the repository [c] of the owner [a/b] and the repository
    [b/c] of the owner [a], each with one label. *)
Definition forgeColliding : Client :=
  λ owner repo,
    if decide (owner = "a/b" ∧ repo = "c")
    then inr [ {| label_ID := 1; label_Name := "bug" |} ]
    else if decide (owner = "a" ∧ repo = "b/c")
    then inr [ {| label_ID := 2; label_Name := "feature" |} ]
    else inl "404 Not Found".

(** The catalog of the specification's example. *)
Definition readyLabels : list Label :=
  [ {| label_ID := 47; label_Name := "ready-to-merge" |};
    {| label_ID := 48; label_Name := "ready-to-test" |};
    {| label_ID := 49; label_Name := "ready-to-review" |};
    {| label_ID := 46; label_Name := "in-review" |};
    {| label_ID := 1; label_Name := "bug" |};
    {| label_ID := 2; label_Name := "enhancement" |};
    {| label_ID := 3; label_Name := "duplicate" |} ].

(** Two callers for one repository whose catalog is not cached. *)
Definition twoCallers : list Concurrent.goroutine :=
  [ Concurrent.call rangeDefault "goern" "forgejo-mcp" ["bug"];
    Concurrent.call rangeDefault "goern" "forgejo-mcp" ["47"] ].

(** Both callers miss under the read lock; the first takes the write
    lock, fetches, stores and unlocks; the second then finds the entry
    under the write lock. *)
Definition raceSchedule (labels : list Label) : Concurrent.schedule :=
  let step i := (i, inr labels) in
  [ step 0; step 0; step 1; step 1; step 0; step 1;
    step 0; step 0; step 0; step 0; step 0;
    step 1; step 1; step 1;
    step 0; step 1 ]%nat.

(** The same race with a forge that fails at the first request. *)
Definition failingSchedule (labels : list Label) : Concurrent.schedule :=
  let step i := (i, inr labels) in
  [ step 0; step 0; step 1; step 1; step 0; step 1;
    step 0; step 0; (0, inl "connection refused"); step 0;
    step 1; step 1; step 1; step 1; step 1;
    step 0; step 1 ]%nat.

(** ** Vocabulary of the further properties *)

(** The number of bytes [sep] in [s]. *)
Fixpoint countByte (sep : ascii) (s : string) : nat :=
  match s with
  | EmptyString => 0
  | String c s' => (if decide (c = sep) then 1 else 0) + countByte sep s'
  end.

(** The byte [sep] does not occur in [s]. *)
Definition freeOf (sep : ascii) (s : string) : Prop := countByte sep s = 0%nat.

(** Every byte of [s] is a comma or ASCII white space. *)
Fixpoint onlySeparators (s : string) : bool :=
  match s with
  | EmptyString => true
  | String c s' => (bool_decide (c = ","%char) || Ascii.is_space c) && onlySeparators s'
  end.

(** Two results of a call are the same, except for which suggestions the
    error of a token carries, and in what order: there are as many. *)
Definition same_but_suggestions
    (r r' : list Z * list ResolvedLabel * option error) : Prop :=
  match r.2, r'.2 with
  | Some (ResolutionError e), Some (ResolutionError e') =>
      r.1 = r'.1 ∧ Input e = Input e' ∧ Reason e = Reason e' ∧
      length (Suggestions e) = length (Suggestions e')
  | _, _ => r = r'
  end.

Section RaceVocabulary2.
Context `{GoUnicode}.
Import Concurrent.

(** The goroutine is between [RLock] and [RUnlock]. *)
Definition in_read (g : goroutine) : bool :=
  match g_pc g with
  | AtReadCheck | AtRUnlockHit _ | AtRUnlockMiss => true
  | _ => false
  end.

(** The goroutine waits for the write lock, or is about to. *)
Definition waits_lock (g : goroutine) : bool :=
  match g_pc g with
  | AtLock => true
  | _ => false
  end.

(** The goroutine has returned from [ResolveLabelIDs]. *)
Definition returned (g : goroutine) : bool :=
  match g_pc g with
  | Done _ => true
  | _ => false
  end.

(** The number of steps that the goroutine can still take, at most. *)
Definition steps_left (g : goroutine) : nat :=
  match g_pc g with
  | AtRLock => 9
  | AtReadCheck => 8
  | AtRUnlockMiss => 7
  | AtLock => 6
  | AtRecheck => 5
  | AtListRepoLabels => 4
  | AtStore _ => 3
  | AtUnlock _ => 2
  | AtRUnlockHit _ => 2
  | AtLoop _ => 1
  | Done _ => 0
  end.

(** What [fetchRepositoryLabels] returns or is about to return to the
    goroutine, once that is settled. *)
Definition fetched_by (g : goroutine) : option (error + cachedLabels) :=
  match g_pc g with
  | AtRUnlockHit cached => Some (inr cached)
  | AtUnlock fetched | AtLoop fetched => Some fetched
  | _ => None
  end.

(** The result of a call is right for the state [s], reached from the
    cache [c0]: it is the error of a failed fetch, for a repository that
    was not cached at the start, or what the loop over the tokens gives
    with the catalog that the cache of [s] holds for the repository. *)
Definition result_of (c0 : gmap string cachedLabels) (s : state) (g : goroutine)
    (result : list Z * list ResolvedLabel * option error) : Prop :=
  (c0 !! key_of g = None ∧
   ∃ msg, result = ([], [], Some (Errorf ("failed to fetch repository labels: "
                                          +:+ "failed to list labels: " +:+ msg)))) ∨
  (∃ c, cache (resolver s) !! key_of g = Some c ∧
        result = resolveLoop (g_range g) (g_owner g) (g_repo g) c (g_labels g) [] []).

(** The mutex counts the readers, and has none while a writer holds it. *)
Record lock_invariant (s : state) : Prop := {
  inv_readers :
    readers (mu (resolver s))
    = sum_list_with (λ g, if in_read g then 1 else 0)%nat (goroutines s);
  inv_exclusive : writer (mu (resolver s)) = true → readers (mu (resolver s)) = 0%nat;
  inv_holder :
    writer (mu (resolver s)) = true →
    ∃ i g, goroutines s !! i = Some g ∧ holds_lock g
}.

(** The catalogs that the goroutines hold are those of the cache, and a
    fetch has failed only for a repository that was not cached at the
    start. *)
Record agree_invariant (c0 : gmap string cachedLabels) (s : state) : Prop := {
  inv_fetched : ∀ i g fetched,
    goroutines s !! i = Some g → fetched_by g = Some fetched →
    match fetched with
    | inr c => cache (resolver s) !! key_of g = Some c
    | inl err =>
        c0 !! key_of g = None ∧ ∃ msg, err = Errorf ("failed to list labels: " +:+ msg)
    end;
  inv_done : ∀ i g result,
    goroutines s !! i = Some g → g_pc g = Done result → result_of c0 s g result
}.

End RaceVocabulary2.

(** * Properties *)

(** ** Strings *)

Lemma string_app_nil_r (s : string) : s +:+ "" = s.
Proof. induction s as [|c s IH]; [reflexivity|]. change (String c (s +:+ "") = String c s). by rewrite IH. Qed.

Lemma string_app_cons (c : ascii) (s t : string) : String c s +:+ t = String c (s +:+ t).
Proof. reflexivity. Qed.

Lemma string_app_assoc (s t u : string) : (s +:+ t) +:+ u = s +:+ (t +:+ u).
Proof.
  induction s as [|c s IH]; [reflexivity|].
  rewrite !string_app_cons. by rewrite IH.
Qed.

Lemma HasPrefix_spec (s prefix : string) :
  HasPrefix s prefix = true ↔ ∃ post, s = prefix +:+ post.
Proof.
  revert s. induction prefix as [|p prefix IH]; intros s.
  - destruct s; simpl; split; eauto.
  - destruct s as [|c s]; cbn [HasPrefix].
    + split; [done|]. intros [post Hpost]. discriminate Hpost.
    + destruct (decide (c = p)) as [->|Hne].
      * split.
        -- intros [post Hpost]%IH. exists post. by rewrite string_app_cons, <- Hpost.
        -- intros [post Hpost]. apply IH. exists post.
           rewrite string_app_cons in Hpost. by injection Hpost.
      * split; [done|]. intros [post Hpost].
        rewrite string_app_cons in Hpost. injection Hpost as ??. by subst.
Qed.

(** [strings.Contains] decides the substring relation. *)
Lemma Contains_spec (s substr : string) :
  Contains s substr = true ↔ substring_of substr s.
Proof.
  unfold substring_of. induction s as [|c s IH].
  - cbn [Contains]. rewrite orb_false_r, HasPrefix_spec. split.
    + intros [post Hpost]. by exists "", post.
    + intros [[|??] [post Hpost]]; [by exists post|discriminate Hpost].
  - cbn [Contains]. rewrite orb_true_iff, IH, HasPrefix_spec. split.
    + intros [[post Hpost]|(pre & post & Hpost)].
      * by exists "", post.
      * exists (String c pre), post. by rewrite string_app_cons, <- Hpost.
    + intros ([|c' pre] & post & Hpost).
      * left. by exists post.
      * right. exists pre, post. rewrite string_app_cons in Hpost. by injection Hpost.
Qed.

(** ** The library functions on concrete inputs *)

Example ToLower_mixed_case : ToLower (H := asciiOnly) "Ready-To-MERGE" = "ready-to-merge".
Proof. reflexivity. Qed.

Example TrimSpace_both_ends : TrimSpace (H := asciiOnly) "  in review  " = "in review".
Proof. reflexivity. Qed.

Example ParseInt_leading_zero : ParseInt "047" = Some 47.
Proof. reflexivity. Qed.

Example ParseInt_signs : ParseInt "+5" = Some 5 ∧ ParseInt "-5" = Some (-5) ∧ ParseInt "-" = None.
Proof. repeat split; reflexivity. Qed.

Example ParseInt_int64_range :
  ParseInt "9223372036854775807" = Some 9223372036854775807 ∧
  ParseInt "9223372036854775808" = None ∧
  ParseInt "-9223372036854775808" = Some (-9223372036854775808) ∧
  ParseInt "-9223372036854775809" = None.
Proof. repeat split; reflexivity. Qed.

Example ParseInt_not_decimal :
  ParseInt "4_7" = None ∧ ParseInt "0x1f" = None ∧ ParseInt "47 " = None ∧ ParseInt "" = None.
Proof. repeat split; reflexivity. Qed.

Example Contains_both_ways :
  Contains "ready-to-merge" "ready" = true ∧ Contains "ready" "ready-to-merge" = false ∧
  Contains "ready" "" = true.
Proof. repeat split; reflexivity. Qed.

Lemma is_space_ascii (c : ascii) : Ascii.is_space c = true → runeSelf c = false.
Proof. by destruct c as [[] [] [] [] [] [] [] []]. Qed.

(** A string of white space only is empty after trimming. *)
Lemma TrimSpace_allSpaces `{GoUnicode} (s : string) :
  allSpaces s = true → TrimSpace s = "".
Proof.
  intros Hs. unfold TrimSpace.
  assert (trimStart s = inl "") as ->; [|done].
  induction s as [|c s IH]; [done|].
  cbn [allSpaces] in Hs. apply andb_true_iff in Hs as [Hc Hs].
  cbn [trimStart]. rewrite (is_space_ascii c Hc), Hc. by apply IH.
Qed.

(** ** The rendered error message *)

Lemma formatSuggestions_loop_S (i : nat) (result : string) (suggestions : list string) :
  formatSuggestions_loop (S i) result suggestions = result +:+ separated suggestions.
Proof.
  revert i result. induction suggestions as [|s rest IH]; intros i result.
  - simpl. by rewrite string_app_nil_r.
  - cbn [formatSuggestions_loop separated]. rewrite IH.
    change (0 <? S i)%nat with true. cbv iota.
    by rewrite !string_app_assoc.
Qed.

Lemma concat_separated (s : string) (rest : list string) :
  String.concat ", " (s :: rest) = s +:+ separated rest.
Proof.
  revert s. induction rest as [|s' rest IH]; intros s.
  - simpl. by rewrite string_app_nil_r.
  - change (String.concat ", " (s :: s' :: rest))
      with (s +:+ ", " +:+ String.concat ", " (s' :: rest)).
    by rewrite IH.
Qed.

(** [formatSuggestions] joins the suggestions with a comma and a space. *)
Lemma formatSuggestions_concat (suggestions : list string) :
  formatSuggestions suggestions = String.concat ", " suggestions.
Proof.
  destruct suggestions as [|s rest]; [reflexivity|].
  unfold formatSuggestions. rewrite decide_False by done.
  cbn [formatSuggestions_loop]. change (0 <? 0)%nat with false. cbv iota.
  by rewrite formatSuggestions_loop_S, concat_separated.
Qed.

(** C8, as stated, fails: with a suggestion the code puts a full stop
    after the reason, before [ Did you mean: ]. *)
Lemma C8_counterexample :
  Error (NewResolutionError "bug" "not found in repository o/r" ["bugs"])
  ≠ rendered_as_specified (NewResolutionError "bug" "not found in repository o/r" ["bugs"]).
Proof. vm_compute. discriminate. Qed.

(** C8 (amended): the rendered message of a resolution error is exactly
    [label '<input>' <reason>] when the error carries no suggestions; when
    it carries some, the message is that string followed by
    [. Did you mean: <suggestions>?] (a full stop comes first), the
    suggestions joined by a comma and a space. *)
Theorem C8_Error_format (e : LabelResolutionError) :
  Error e =
    match Suggestions e with
    | [] => "label '" +:+ Input e +:+ "' " +:+ Reason e
    | _ :: _ =>
        ("label '" +:+ Input e +:+ "' " +:+ Reason e)
          +:+ ". Did you mean: " +:+ String.concat ", " (Suggestions e) +:+ "?"
    end.
Proof.
  unfold Error. rewrite formatSuggestions_concat.
  destruct (Suggestions e) as [|s rest] eqn:Hs.
  - by rewrite decide_False by (simpl; lia).
  - rewrite decide_True by (simpl; lia).
    by rewrite !string_app_assoc.
Qed.

(** ** The cache key *)

Lemma Contains_slash_cons (c : ascii) (s : string) :
  Contains (String c s) "/" = false → c ≠ "/"%char ∧ Contains s "/" = false.
Proof.
  cbn [Contains HasPrefix]. intros Hc. apply orb_false_iff in Hc as [Hc ?].
  split; [|done]. intros ->.
  destruct (decide ("/"%char = "/"%char)); [|done]. by destruct s.
Qed.

Lemma Contains_slash_app (s t : string) : Contains (s +:+ "/" +:+ t) "/" = true.
Proof. apply Contains_spec. by exists s, t. Qed.

Lemma cacheKey_inj_owner (o1 r1 o2 r2 : string) :
  Contains o1 "/" = false → Contains o2 "/" = false →
  cacheKey o1 r1 = cacheKey o2 r2 → o1 = o2 ∧ r1 = r2.
Proof.
  unfold cacheKey. revert o2. induction o1 as [|c o1 IH]; intros [|c2 o2] H1 H2 Hk.
  - by injection Hk.
  - rewrite string_app_cons in Hk. injection Hk as <- _.
    by apply Contains_slash_cons in H2 as [? _].
  - rewrite string_app_cons in Hk. injection Hk as -> _.
    by apply Contains_slash_cons in H1 as [? _].
  - rewrite !string_app_cons in Hk. injection Hk as -> Hk.
    apply Contains_slash_cons in H1 as [_ H1]. apply Contains_slash_cons in H2 as [_ H2].
    destruct (IH o2 H1 H2 Hk) as [-> ->]. done.
Qed.

Lemma cacheKey_inj_repo (o1 r1 o2 r2 : string) :
  Contains r1 "/" = false → Contains r2 "/" = false →
  cacheKey o1 r1 = cacheKey o2 r2 → o1 = o2 ∧ r1 = r2.
Proof.
  unfold cacheKey. revert o2. induction o1 as [|c o1 IH]; intros [|c2 o2] H1 H2 Hk.
  - by injection Hk.
  - rewrite string_app_cons in Hk. injection Hk as _ Hk.
    change ("" +:+ r1) with r1 in Hk.
    rewrite Hk, Contains_slash_app in H1. done.
  - rewrite string_app_cons in Hk. injection Hk as _ Hk.
    change ("" +:+ r2) with r2 in Hk.
    rewrite <- Hk, Contains_slash_app in H2. done.
  - rewrite !string_app_cons in Hk. injection Hk as -> Hk.
    destruct (IH o2 H1 H2 Hk) as [-> ->]. done.
Qed.

(** C7, as stated, fails: the owner [a/b] with the repository [c] and the
    owner [a] with the repository [b/c] are two pairs with one key. *)
Lemma C7_counterexample :
  ¬ (∀ o1 r1 o2 r2 : string, (o1, r1) ≠ (o2, r2) → cacheKey o1 r1 ≠ cacheKey o2 r2).
Proof. intros Hinj. by apply (Hinj "a/b" "c" "a" "b/c"). Qed.

(** C7 (amended): the cache key is collision-free among the pairs whose
    owners contain no slash, and among the pairs whose repository names
    contain no slash: two distinct such pairs have distinct keys. *)
Theorem C7_cacheKey_injective (o1 r1 o2 r2 : string) :
  (Contains o1 "/" = false ∧ Contains o2 "/" = false) ∨
  (Contains r1 "/" = false ∧ Contains r2 "/" = false) →
  (o1, r1) ≠ (o2, r2) → cacheKey o1 r1 ≠ cacheKey o2 r2.
Proof.
  intros [[H1 H2]|[H1 H2]] Hne Hk; apply Hne.
  - by destruct (cacheKey_inj_owner _ _ _ _ H1 H2 Hk) as [-> ->].
  - by destruct (cacheKey_inj_repo _ _ _ _ H1 H2 Hk) as [-> ->].
Qed.

(** Two repositories of one owner have two keys. *)
Lemma C7_cacheKey_injective_witness :
  cacheKey "goern" "forgejo-mcp" ≠ cacheKey "goern" "forgejo".
Proof.
  apply C7_cacheKey_injective.
  - left. split; reflexivity.
  - discriminate.
Defined.

(** With the two colliding keys, the second repository is resolved against
    the catalog of the first, and no request is sent for it. *)
Example cacheKey_collision_shares_entry :
  let '(_, p1) :=
    ResolveLabelIDs (H := asciiOnly) forgeColliding rangeDefault NewLabelResolver
      "a/b" "c" ["bug"] in
  let '(result, p2) :=
    ResolveLabelIDs (H := asciiOnly) forgeColliding rangeDefault p1 "a" "b/c" ["bug"] in
  result = ([1], [{| ID := 1; Name := "bug" |}], None) ∧
  apiCalls p2 = [("a/b", "c")].
Proof. vm_compute. split; reflexivity. Qed.

(** ** The two maps of a catalog *)

Section Catalog.
Context `{GoUnicode}.

Lemma buildLabelMaps_snoc (labels : list Label) (label : Label) :
  buildLabelMaps (labels ++ [label]) = buildLabelMaps_step (buildLabelMaps labels) label.
Proof. unfold buildLabelMaps. by rewrite fold_left_app. Qed.

(** The name→ID map sends a key to the ID of the last label, in fetch
    order, whose lowercased name is that key. *)
Lemma nameToID_lookup (labels : list Label) (k : string) :
  nameToID (buildLabelMaps labels) !! k
  = label_ID <$> last (filter (λ l, ToLower (label_Name l) = k) labels).
Proof.
  induction labels as [|label labels IH] using rev_ind; [done|].
  rewrite buildLabelMaps_snoc, filter_app. cbn [buildLabelMaps_step nameToID].
  rewrite lookup_insert. destruct (decide (ToLower (label_Name label) = k)) as [Hk|Hk].
  - rewrite filter_cons_True, filter_nil by done. by rewrite last_snoc.
  - rewrite filter_cons_False, filter_nil by done. by rewrite app_nil_r.
Qed.

(** The ID→name map sends an ID to the name of the last label, in fetch
    order, with that ID. *)
Lemma idToName_lookup (labels : list Label) (i : Z) :
  idToName (buildLabelMaps labels) !! i
  = label_Name <$> last (filter (λ l, label_ID l = i) labels).
Proof.
  induction labels as [|label labels IH] using rev_ind; [done|].
  rewrite buildLabelMaps_snoc, filter_app. cbn [buildLabelMaps_step idToName].
  rewrite lookup_insert. destruct (decide (label_ID label = i)) as [Hi|Hi].
  - rewrite filter_cons_True, filter_nil by done. by rewrite last_snoc.
  - rewrite filter_cons_False, filter_nil by done. by rewrite app_nil_r.
Qed.

Lemma last_filter_elem {A} (P : A → Prop) `{!∀ x, Decision (P x)} (l : list A) (x : A) :
  last (filter P l) = Some x → P x ∧ x ∈ l.
Proof. intros Hl%last_Some_elem_of. by apply list_elem_of_filter in Hl. Qed.

Lemma last_filter_is_Some {A} (P : A → Prop) `{!∀ x, Decision (P x)} (l : list A) (x : A) :
  x ∈ l → P x → is_Some (last (filter P l)).
Proof.
  intros Hx HP. apply last_is_Some. intros Hnil.
  by apply (filter_nil_not_elem_of P l x).
Qed.

Lemma buildLabelMaps_consistent (labels : list Label) :
  consistent_last_wins labels (buildLabelMaps labels).
Proof.
  set (c := buildLabelMaps labels). unfold consistent_last_wins.
  assert (Hconv : ∀ name id, nameToID c !! name = Some id → is_Some (idToName c !! id)).
  { intros name id. unfold c. rewrite nameToID_lookup, idToName_lookup.
    intros (l & Hl & ->)%fmap_Some. apply last_filter_elem in Hl as [_ Hl].
    apply fmap_is_Some. by apply (last_filter_is_Some _ _ l). }
  assert (Hlast : ∀ id name, idToName c !! id = Some name →
     ∃ l, last (filter (λ l, ToLower (label_Name l) = ToLower name) labels) = Some l ∧
          nameToID c !! ToLower name = Some (label_ID l)).
  { intros id name. unfold c. rewrite nameToID_lookup, idToName_lookup.
    intros (l & Hl & ->)%fmap_Some. apply last_filter_elem in Hl as [_ Hl].
    destruct (last_filter_is_Some (λ l', ToLower (label_Name l') = ToLower (label_Name l))
                labels l Hl eq_refl) as [l' Hl'].
    exists l'. by rewrite Hl'. }
  split; [done|]. split; [done|].
  intros Huniq. split; [|done].
  intros id name Hid. destruct (Hlast id name Hid) as (l' & Hl' & ->).
  apply last_filter_elem in Hl' as [Hname Hl'].
  revert Hid. unfold c. rewrite idToName_lookup.
  intros (l & Hl & ->)%fmap_Some. apply last_filter_elem in Hl as [Hl_id Hl].
  f_equal. rewrite <- Hl_id. by apply Huniq.
Qed.

Lemma fetchRepositoryLabels_miss (client : Client) (p : labelResolverImpl)
    (owner repo : string) (labels : list Label) :
  cache p !! cacheKey owner repo = None → client owner repo = inr labels →
  fetchRepositoryLabels client p owner repo
  = (inr (buildLabelMaps labels),
     {| cache := <[cacheKey owner repo := buildLabelMaps labels]> (cache p);
        apiCalls := apiCalls p ++ [(owner, repo)] |}).
Proof. intros Hmiss Hok. unfold fetchRepositoryLabels. by rewrite Hmiss, Hok. Qed.

Lemma fetchRepositoryLabels_hit (client : Client) (p : labelResolverImpl)
    (owner repo : string) (cached : cachedLabels) :
  cache p !! cacheKey owner repo = Some cached →
  fetchRepositoryLabels client p owner repo = (inr cached, p).
Proof. intros Hhit. unfold fetchRepositoryLabels. by rewrite Hhit. Qed.

Lemma fetchRepositoryLabels_error (client : Client) (p : labelResolverImpl)
    (owner repo : string) (err : string) :
  cache p !! cacheKey owner repo = None → client owner repo = inl err →
  fetchRepositoryLabels client p owner repo
  = (inl (Errorf ("failed to list labels: " +:+ err)),
     {| cache := cache p; apiCalls := apiCalls p ++ [(owner, repo)] |}).
Proof. intros Hmiss Herr. unfold fetchRepositoryLabels. by rewrite Hmiss, Herr. Qed.

(** C6 (amended): after a successful fetch of the catalog, the two maps
    that are cached and returned are those built from the fetched list,
    and: every name→ID entry's ID is in the ID→name map; for every ID in
    the ID→name map, the lowercase of its stored name is a key of the
    name→ID map, and the value there is the ID of the last label in fetch
    order with that lowercased name (the later entry wins); this is the
    same ID when no two fetched labels with different IDs have the same
    lowercased name. *)
Theorem C6_catalog_consistent (client : Client) (p : labelResolverImpl)
    (owner repo : string) (labels : list Label) :
  cache p !! cacheKey owner repo = None → client owner repo = inr labels →
  ∃ c p', fetchRepositoryLabels client p owner repo = (inr c, p') ∧
          cache p' !! cacheKey owner repo = Some c ∧
          consistent_last_wins labels c.
Proof.
  intros Hmiss Hok. eexists _, _. split; [by apply fetchRepositoryLabels_miss|].
  split; [apply lookup_insert_eq|]. apply buildLabelMaps_consistent.
Qed.

Lemma cache_built_new : cache_built NewLabelResolver.
Proof. intros key c Hc. cbn [NewLabelResolver cache] in Hc. by rewrite lookup_empty in Hc. Qed.

Lemma cache_built_ClearCache (p : labelResolverImpl) : cache_built (ClearCache p).
Proof. intros key c Hc. cbn [ClearCache cache] in Hc. by rewrite lookup_empty in Hc. Qed.

(** Calls keep the cache made of built catalogs, so that what
    [fetchRepositoryLabels] returns from the cache is as consistent as what
    it returns from the forge. *)
Lemma cache_built_fetchRepositoryLabels (client : Client) (p : labelResolverImpl)
    (owner repo : string) :
  cache_built p → cache_built (snd (fetchRepositoryLabels client p owner repo)).
Proof.
  intros Hbuilt. unfold fetchRepositoryLabels.
  destruct (cache p !! cacheKey owner repo) as [cached|] eqn:Hc; [done|].
  destruct (client owner repo) as [err|labels]; [done|].
  intros key c. cbn [snd cache]. rewrite lookup_insert.
  destruct (decide (cacheKey owner repo = key)); [|by apply Hbuilt].
  intros [= <-]. by exists labels.
Qed.

Lemma fetchRepositoryLabels_consistent (client : Client) (p p' : labelResolverImpl)
    (owner repo : string) (c : cachedLabels) :
  cache_built p → fetchRepositoryLabels client p owner repo = (inr c, p') →
  ∃ labels, c = buildLabelMaps labels ∧ consistent_last_wins labels c.
Proof.
  intros Hbuilt. unfold fetchRepositoryLabels.
  destruct (cache p !! cacheKey owner repo) as [cached|] eqn:Hc.
  - intros [= <- _]. destruct (Hbuilt _ _ Hc) as [labels ->].
    exists labels. split; [done|]. apply buildLabelMaps_consistent.
  - destruct (client owner repo) as [err|labels]; [done|].
    intros [= <- _]. exists labels. split; [done|]. apply buildLabelMaps_consistent.
Qed.

End Catalog.

(** C6, as stated, fails: of two labels whose names differ only by case,
    the earlier one's ID leads to a name whose lowercase leads to the later
    one's ID. *)
Lemma C6_counterexample :
  match fetchRepositoryLabels (H := asciiOnly)
          (forgeWith [ {| label_ID := 1; label_Name := "Bug" |};
                       {| label_ID := 2; label_Name := "bug" |} ])
          NewLabelResolver "goern" "forgejo-mcp" with
  | (inr c, _) => ¬ consistent_as_specified (H := asciiOnly) c
  | (inl _, _) => False
  end.
Proof.
  erewrite fetchRepositoryLabels_miss by reflexivity.
  intros [Hfwd _]. specialize (Hfwd 1 "Bug" eq_refl).
  vm_compute in Hfwd. discriminate Hfwd.
Qed.

(** A fetch of two labels with names that differ by more than case. *)
Lemma C6_catalog_consistent_witness :
  ∃ c p',
    fetchRepositoryLabels (H := asciiOnly)
      (forgeWith [ {| label_ID := 46; label_Name := "in-review" |};
                   {| label_ID := 47; label_Name := "Ready-To-Merge" |} ])
      NewLabelResolver "goern" "forgejo-mcp" = (inr c, p') ∧
    cache p' !! cacheKey "goern" "forgejo-mcp" = Some c ∧
    consistent_last_wins (H := asciiOnly)
      [ {| label_ID := 46; label_Name := "in-review" |};
        {| label_ID := 47; label_Name := "Ready-To-Merge" |} ] c.
Proof.
  apply (C6_catalog_consistent (H := asciiOnly)); reflexivity.
Defined.

(** ** The loop over the tokens *)

Section Resolution.
Context `{GoUnicode}.
Variables (range : RangeOrder) (owner repo : string).

(** The loop appends the results of the tokens, in their order, as long
    as every token yields one. *)
Lemma resolveLoop_all (c : cachedLabels) (labels : list string)
    (results : list (Z * ResolvedLabel)) (labelIDs : list Z)
    (resolvedLabels : list ResolvedLabel) :
  Forall2 (λ tok r, resolveToken range owner repo c tok = inr r) labels results →
  resolveLoop range owner repo c labels labelIDs resolvedLabels
  = (labelIDs ++ results.*1, resolvedLabels ++ results.*2, None).
Proof.
  intros Hall. revert labelIDs resolvedLabels.
  induction Hall as [|tok [id rl] labels results Htok _ IH]; intros labelIDs resolvedLabels.
  - simpl. by rewrite !app_nil_r.
  - cbn [resolveLoop]. rewrite Htok, IH. cbn [fmap list_fmap fst snd].
    by rewrite <- !app_assoc.
Qed.

(** The loop returns the error of the first token that yields one, and
    no partial result. *)
Lemma resolveLoop_first_error (c : cachedLabels) (pre post : list string)
    (tok : string) (e : LabelResolutionError) (labelIDs : list Z)
    (resolvedLabels : list ResolvedLabel) :
  Forall (λ t, ∃ r, resolveToken range owner repo c t = inr r) pre →
  resolveToken range owner repo c tok = inl e →
  resolveLoop range owner repo c (pre ++ tok :: post) labelIDs resolvedLabels
  = ([], [], Some (ResolutionError e)).
Proof.
  intros Hpre Htok. revert labelIDs resolvedLabels.
  induction Hpre as [|t pre [[id rl] Ht] _ IH]; intros labelIDs resolvedLabels.
  - cbn [app resolveLoop]. by rewrite Htok.
  - cbn [app resolveLoop]. by rewrite Ht, IH.
Qed.

(** Whatever the tokens, an error comes with two empty slices. *)
Lemma resolveLoop_error_empty (c : cachedLabels) (labels : list string)
    (labelIDs : list Z) (resolvedLabels : list ResolvedLabel)
    (ids : list Z) (rls : list ResolvedLabel) (err : error) :
  resolveLoop range owner repo c labels labelIDs resolvedLabels = (ids, rls, Some err) →
  ids = [] ∧ rls = [].
Proof.
  revert labelIDs resolvedLabels.
  induction labels as [|tok labels IH]; intros labelIDs resolvedLabels; [done|].
  cbn [resolveLoop]. destruct (resolveToken range owner repo c tok) as [e|[id rl]].
  - by intros [= <- <- _].
  - apply IH.
Qed.

(** A token that is empty after trimming stops the loop, whatever
    precedes it. *)
Lemma resolveLoop_empty_token (c : cachedLabels) (labels : list string)
    (labelIDs : list Z) (resolvedLabels : list ResolvedLabel) :
  (∃ tok, tok ∈ labels ∧ TrimSpace tok = "") →
  ∃ err, resolveLoop range owner repo c labels labelIDs resolvedLabels = ([], [], Some err).
Proof.
  intros (tok & Hin & Hempty). revert labelIDs resolvedLabels.
  induction labels as [|t labels IH]; intros labelIDs resolvedLabels.
  - by apply elem_of_nil in Hin.
  - cbn [resolveLoop]. destruct (resolveToken range owner repo c t) as [e|[id rl]] eqn:Ht; [by eauto|].
    apply elem_of_cons in Hin as [->|Hin]; [|by apply IH].
    unfold resolveToken in Ht. rewrite Hempty in Ht. done.
Qed.

(** *** Numeric tokens *)

Lemma ParseInt_nonempty (s : string) (n : Z) : ParseInt s = Some n → s ≠ "".
Proof. by intros Hs ->. Qed.

Lemma resolveToken_numeric (c : cachedLabels) (tok : string) (n : Z) :
  ParseInt (TrimSpace tok) = Some n → 0 < n →
  resolveToken range owner repo c tok
  = inr (n, {| ID := n; Name := numericName c n (TrimSpace tok) |}).
Proof.
  intros Hparse Hpos. unfold resolveToken.
  rewrite decide_False by (by eapply ParseInt_nonempty).
  rewrite Hparse, decide_False by lia.
  unfold findNameByID, numericName. destruct (idToName c !! n) as [name|].
  - destruct (decide (name = "")) as [->|Hname].
    + by rewrite decide_False by (by intros ?).
    + by rewrite decide_True.
  - by rewrite decide_False by (by intros ?).
Qed.

(** *** Names *)

Lemma resolveToken_name (c : cachedLabels) (tok : string) (id : Z) :
  TrimSpace tok ≠ "" → ParseInt (TrimSpace tok) = None →
  nameToID c !! ToLower (TrimSpace tok) = Some id →
  resolveToken range owner repo c tok = inr (id, {| ID := id; Name := TrimSpace tok |}).
Proof.
  intros Hne Hparse Hfound. unfold resolveToken, lookupByName.
  by rewrite decide_False, Hparse, Hfound.
Qed.

Lemma resolveToken_not_found (c : cachedLabels) (tok : string) :
  TrimSpace tok ≠ "" → ParseInt (TrimSpace tok) = None →
  nameToID c !! ToLower (TrimSpace tok) = None →
  resolveToken range owner repo c tok
  = inl (NewResolutionError (TrimSpace tok)
           ("not found in repository " +:+ owner +:+ "/" +:+ repo)
           (getSuggestions range (nameToID c) (TrimSpace tok))).
Proof.
  intros Hne Hparse Hfound. unfold resolveToken, lookupByName.
  by rewrite decide_False, Hparse, Hfound.
Qed.

Lemma resolveToken_empty (c : cachedLabels) (tok : string) :
  TrimSpace tok = "" →
  resolveToken range owner repo c tok = inl (NewResolutionError "" "empty label not allowed" []).
Proof. intros Hempty. unfold resolveToken. by rewrite Hempty. Qed.

Lemma token_resolves_result (c : cachedLabels) (tok : string) :
  token_resolves c tok → ∃ r, resolveToken range owner repo c tok = inr r.
Proof.
  intros [(n & Hparse & Hpos)|(Hne & Hparse & [id Hid])].
  - eexists. by apply resolveToken_numeric.
  - eexists. by apply resolveToken_name.
Qed.

Lemma resolveLoop_entry_per_token (c : cachedLabels) (labels : list string) :
  Forall (token_resolves c) labels →
  ∃ ids rls, resolveLoop range owner repo c labels [] [] = (ids, rls, None) ∧
             entry_per_token range owner repo c labels ids rls.
Proof.
  intros Hall.
  assert (∃ results, Forall2 (λ tok r, resolveToken range owner repo c tok = inr r) labels results)
    as [results Hres].
  { induction Hall as [|tok labels Htok _ [results IH]]; [by exists []|].
    destruct (token_resolves_result _ _ Htok) as [r Hr]. exists (r :: results).
    by constructor. }
  exists (results.*1), (results.*2). split; [by rewrite (resolveLoop_all _ _ results)|].
  pose proof (Forall2_length _ _ _ Hres) as Hlen.
  split; [by rewrite length_fmap|]. split; [by rewrite length_fmap|].
  intros i tok Hi. destruct (Forall2_lookup_l _ _ _ _ _ Hres Hi) as ([id rl] & Hr & Htok).
  exists id, rl. by rewrite !list_lookup_fmap, Hr.
Qed.

End Resolution.

(** ** Suggestions *)

Section Suggestions.
Context `{GoUnicode}.

Lemma suggested_contained (input name : string) :
  suggested input name ↔ contained input name.
Proof.
  unfold suggested, contained.
  rewrite orb_true_iff, !Contains_spec. done.
Qed.

Lemma elem_of_keys (m : gmap string Z) (k : string) :
  k ∈ (map_to_list m).*1 ↔ is_Some (m !! k).
Proof.
  rewrite list_elem_of_fmap. split.
  - intros ([k' v] & -> & Hkv). apply elem_of_map_to_list in Hkv. by exists v.
  - intros [v Hv]. exists (k, v). split; [done|]. by apply elem_of_map_to_list.
Qed.

Lemma elem_of_matching_keys (m : gmap string Z) (input k : string) :
  k ∈ matching_keys m input ↔ is_Some (m !! k) ∧ contained input k.
Proof.
  unfold matching_keys.
  rewrite list_elem_of_filter, suggested_contained, elem_of_keys. tauto.
Qed.

Lemma getSuggestions_take (range : RangeOrder) (m : gmap string Z) (input : string) :
  getSuggestions range m input = take 3 (filter (suggested input) (range m)).
Proof.
  unfold getSuggestions. fold (suggested input).
  destruct (decide _) as [Hlen|Hlen]; [done|].
  rewrite take_ge; [done|]. by apply Nat.nlt_ge.
Qed.

Lemma getSuggestions_Permutation (range : RangeOrder) (m : gmap string Z)
    (input : string) :
  range_valid range → filter (suggested input) (range m) ≡ₚ matching_keys m input.
Proof. intros Hrange. unfold matching_keys. by rewrite (Hrange m). Qed.

(** For that catalog and the input [ready], the suggestions are the three
    names that start with [ready-], whatever the Unicode tables and the
    order of the iteration. *)
Lemma getSuggestions_ready (range : RangeOrder) :
  range_valid range →
  getSuggestions range (nameToID (buildLabelMaps readyLabels)) "ready"
  ≡ₚ ["ready-to-merge"; "ready-to-test"; "ready-to-review"].
Proof.
  intros Hrange.
  rewrite getSuggestions_take.
  assert (matching_keys (nameToID (buildLabelMaps readyLabels)) "ready"
          ≡ₚ ["ready-to-merge"; "ready-to-test"; "ready-to-review"]) as Hkeys.
  { apply NoDup_Permutation.
    - apply NoDup_filter, NoDup_fst_map_to_list.
    - compute_done.
    - intros k. unfold matching_keys.
      assert (filter (suggested "ready")
                (map_to_list (nameToID (buildLabelMaps readyLabels))).*1
              = ["ready-to-merge"; "ready-to-review"; "ready-to-test"]) as ->
        by (vm_compute; reflexivity).
      rewrite !elem_of_cons, !elem_of_nil. tauto. }
  rewrite take_ge.
  - by rewrite (getSuggestions_Permutation range _ _ Hrange).
  - by rewrite (getSuggestions_Permutation range _ _ Hrange), Hkeys.
Qed.

(** C4 (amended): every suggestion is a key of the catalog in symmetric
    containment with the lowercased input, no key is suggested twice, and
    there are never more than 3 suggestions: as many as there are such
    keys, up to 3.  So when at most 3 keys are in symmetric containment
    with the input, the suggestions are exactly those keys; when more are,
    3 of them are suggested (which ones depends on the order of the map
    iteration).  For the catalog [ready-to-merge], [ready-to-test],
    [ready-to-review], [in-review], [bug], [enhancement], [duplicate] and
    the input [ready], the suggestions are the three names that start with
    [ready-], in some order. *)
Theorem C4_getSuggestions (range : RangeOrder) (m : gmap string Z) (input : string) :
  range_valid range →
  let suggestions := getSuggestions range m input in
  (length suggestions ≤ 3)%nat ∧
  NoDup suggestions ∧
  (∀ k, k ∈ suggestions → is_Some (m !! k) ∧ contained input k) ∧
  length suggestions = Nat.min 3 (length (matching_keys m input)) ∧
  ((length (matching_keys m input) ≤ 3)%nat →
   ∀ k, k ∈ suggestions ↔ is_Some (m !! k) ∧ contained input k) ∧
  getSuggestions range (nameToID (buildLabelMaps readyLabels)) "ready"
  ≡ₚ ["ready-to-merge"; "ready-to-test"; "ready-to-review"].
Proof.
  intros Hrange suggestions.
  pose proof (getSuggestions_Permutation range m input Hrange) as Hperm.
  assert (Hsub : ∀ k, k ∈ suggestions → k ∈ matching_keys m input).
  { intros k Hk. rewrite <- Hperm. unfold suggestions in Hk.
    rewrite getSuggestions_take in Hk. by apply subseteq_take in Hk. }
  assert (Hlen : length suggestions = Nat.min 3 (length (matching_keys m input))).
  { unfold suggestions. by rewrite getSuggestions_take, length_take, Hperm. }
  split; [lia|]. split; [|split; [|split; [done|split]]].
  - unfold suggestions. rewrite getSuggestions_take.
    eapply sublist_NoDup; [|apply sublist_take].
    apply NoDup_filter. rewrite (Hrange m). apply NoDup_fst_map_to_list.
  - intros k Hk. by apply elem_of_matching_keys, Hsub.
  - intros Hfew k. rewrite <- elem_of_matching_keys, <- Hperm.
    unfold suggestions. rewrite getSuggestions_take, take_ge; [done|].
    by rewrite Hperm.
  - by apply getSuggestions_ready.
Qed.

(** When more than 3 keys pass the test, one of them is not suggested,
    whatever the order of the iteration. *)
Lemma getSuggestions_truncates (range : RangeOrder) (m : gmap string Z)
    (input : string) :
  range_valid range → (3 < length (matching_keys m input))%nat →
  ∃ k, (is_Some (m !! k) ∧ contained input k) ∧ k ∉ getSuggestions range m input.
Proof.
  intros Hrange Hmany.
  destruct (decide (Forall (λ k, k ∈ getSuggestions range m input) (matching_keys m input)))
    as [Hall|Hnot].
  - exfalso. rewrite Forall_forall in Hall.
    assert (length (matching_keys m input) ≤ length (getSuggestions range m input))%nat.
    { apply submseteq_length, NoDup_submseteq; [|done].
      apply NoDup_filter, NoDup_fst_map_to_list. }
    rewrite getSuggestions_take, length_take in *. lia.
  - apply not_Forall_Exists in Hnot; [|apply _].
    apply Exists_exists in Hnot as (k & Hk & Hnotin).
    exists k. split; [|done]. by apply elem_of_matching_keys.
Qed.

End Suggestions.

(** ** [ResolveLabelIDs] *)

Section ResolveLabelIDs.
Context `{GoUnicode}.

Lemma ResolveLabelIDs_fetched (client : Client) (range : RangeOrder)
    (p p' : labelResolverImpl) (owner repo : string) (labels : list string)
    (fetched : error + cachedLabels) :
  fetchRepositoryLabels client p owner repo = (fetched, p') →
  ResolveLabelIDs client range p owner repo labels
  = (resolveFetched range owner repo labels fetched, p').
Proof. intros Hfetch. unfold ResolveLabelIDs. by rewrite Hfetch. Qed.

(** C1 (amended): when the catalog is fetched or cached and every token
    of the input list, after trimming, either parses as a decimal 64-bit
    integer above zero, or is not empty, does not parse as a decimal 64-bit
    integer and is, lowercased, a name of the catalog, [ResolveLabelIDs]
    succeeds and returns an ID sequence and a [ResolvedLabel] sequence of
    the length of the input list, the entries at each index being those of
    the token at that index. *)
Theorem C1_one_entry_per_token (client : Client) (range : RangeOrder)
    (p p' : labelResolverImpl) (owner repo : string) (labels : list string)
    (c : cachedLabels) :
  fetchRepositoryLabels client p owner repo = (inr c, p') →
  Forall (token_resolves c) labels →
  ∃ ids rls,
    ResolveLabelIDs client range p owner repo labels = ((ids, rls, None), p') ∧
    entry_per_token range owner repo c labels ids rls.
Proof.
  intros Hfetch Hall.
  destruct (resolveLoop_entry_per_token range owner repo c labels Hall)
    as (ids & rls & Hloop & Hentries).
  exists ids, rls. split; [|done].
  rewrite (ResolveLabelIDs_fetched _ _ _ _ _ _ _ _ Hfetch). cbn [resolveFetched].
  by rewrite Hloop.
Qed.

(** C2 (amended): a token that, trimmed, parses as a decimal 64-bit
    integer above zero is accepted as that ID whatever the catalog holds
    (it never yields a not-found error), and its display name is the
    catalog's original-case name when the ID is in the ID→name map with a
    name that is not the empty string, and otherwise the trimmed string as
    typed. *)
Theorem C2_numeric_token (client : Client) (range : RangeOrder)
    (p p' : labelResolverImpl) (owner repo : string) (c : cachedLabels)
    (tok : string) (n : Z) :
  fetchRepositoryLabels client p owner repo = (inr c, p') →
  ParseInt (TrimSpace tok) = Some n → 0 < n →
  let name :=
    match idToName c !! n with
    | Some name => if decide (name = "") then TrimSpace tok else name
    | None => TrimSpace tok
    end in
  resolveToken range owner repo c tok = inr (n, {| ID := n; Name := name |}) ∧
  ResolveLabelIDs client range p owner repo [tok]
  = (([n], [{| ID := n; Name := name |}], None), p').
Proof.
  intros Hfetch Hparse Hpos name.
  pose proof (resolveToken_numeric range owner repo c tok n Hparse Hpos) as Htok.
  split; [done|].
  rewrite (ResolveLabelIDs_fetched _ _ _ _ _ _ _ _ Hfetch).
  cbn [resolveFetched resolveLoop]. by rewrite Htok.
Qed.

(** C3: for a token that is not empty after trimming and does not parse
    as a decimal 64-bit integer, the lookup is by the lowercased token in
    the name→ID map: a hit gives the ID found there, with the trimmed
    string as typed for display name; a miss gives the not-found error.
    So a token whose lowercase is the lowercase of a name of the fetched
    catalog resolves to the ID kept for that name, in any casing. *)
Theorem C3_name_lookup (range : RangeOrder) (owner repo : string)
    (c : cachedLabels) (tok : string) :
  TrimSpace tok ≠ "" → ParseInt (TrimSpace tok) = None →
  resolveToken range owner repo c tok
  = match nameToID c !! ToLower (TrimSpace tok) with
    | Some id => inr (id, {| ID := id; Name := TrimSpace tok |})
    | None =>
        inl (NewResolutionError (TrimSpace tok)
               ("not found in repository " +:+ owner +:+ "/" +:+ repo)
               (getSuggestions range (nameToID c) (TrimSpace tok)))
    end ∧
  ∀ labels label,
    c = buildLabelMaps labels → label ∈ labels →
    ToLower (TrimSpace tok) = ToLower (label_Name label) →
    ∃ id, nameToID c !! ToLower (label_Name label) = Some id ∧
          resolveToken range owner repo c tok
          = inr (id, {| ID := id; Name := TrimSpace tok |}).
Proof.
  intros Hne Hparse.
  assert (Hstep : resolveToken range owner repo c tok
    = match nameToID c !! ToLower (TrimSpace tok) with
      | Some id => inr (id, {| ID := id; Name := TrimSpace tok |})
      | None =>
          inl (NewResolutionError (TrimSpace tok)
                 ("not found in repository " +:+ owner +:+ "/" +:+ repo)
                 (getSuggestions range (nameToID c) (TrimSpace tok)))
      end).
  { destruct (nameToID c !! ToLower (TrimSpace tok)) as [id|] eqn:Hid.
    - by apply resolveToken_name.
    - by apply resolveToken_not_found. }
  split; [done|].
  intros labels label -> Hin Hcase.
  destruct (last_filter_is_Some
              (λ l, ToLower (label_Name l) = ToLower (label_Name label)) labels label
              Hin eq_refl) as [l Hl].
  exists (label_ID l).
  assert (nameToID (buildLabelMaps labels) !! ToLower (label_Name label)
          = Some (label_ID l)) as Hkey by (by rewrite nameToID_lookup, Hl).
  split; [done|]. by rewrite Hstep, Hcase, Hkey.
Qed.

(** C5 (amended): when the catalog is fetched or cached and the input
    list holds a token that is empty after trimming, [ResolveLabelIDs]
    returns an error and two empty slices; when the tokens before it
    resolve, the call fails at that token: input the empty string, reason
    [empty label not allowed], no suggestions, whatever tokens follow. *)
Theorem C5_empty_token (client : Client) (range : RangeOrder)
    (p p' : labelResolverImpl) (owner repo : string) (c : cachedLabels)
    (pre post : list string) (tok : string) :
  fetchRepositoryLabels client p owner repo = (inr c, p') →
  TrimSpace tok = "" →
  (∃ err, ResolveLabelIDs client range p owner repo (pre ++ tok :: post)
          = (([], [], Some err), p')) ∧
  (Forall (λ t, ∃ r, resolveToken range owner repo c t = inr r) pre →
   ResolveLabelIDs client range p owner repo (pre ++ tok :: post)
   = (([], [],
       Some (ResolutionError
               {| Input := ""; Reason := "empty label not allowed"; Suggestions := [] |})),
      p')).
Proof.
  intros Hfetch Hempty.
  rewrite (ResolveLabelIDs_fetched _ _ _ _ _ _ _ _ Hfetch). cbn [resolveFetched]. split.
  - destruct (resolveLoop_empty_token range owner repo c (pre ++ tok :: post) [] [])
      as [err Herr].
    + exists tok. split; [|done]. apply elem_of_app. right. apply elem_of_cons. by left.
    + exists err. by rewrite Herr.
  - intros Hpre.
    rewrite (resolveLoop_first_error range owner repo c pre post tok
               (NewResolutionError "" "empty label not allowed" [])); [done..|].
    by apply resolveToken_empty.
Qed.

(** C10: when the forge answers the listing, a call of [ResolveLabelIDs]
    leaves the catalog of the repository in the cache whatever the tokens
    are and whatever the call returns (the request, if one is needed, is
    sent before any token is looked at, and no error of a token undoes the
    insertion), and a later call for the same owner and repository sends
    no request and leaves the resolver as it is. *)
Theorem C10_cache_kept_on_failure (client : Client) (range : RangeOrder)
    (p : labelResolverImpl) (owner repo : string) (labels : list string)
    (fetchedLabels : list Label) :
  client owner repo = inr fetchedLabels →
  let '(result, p') := ResolveLabelIDs client range p owner repo labels in
  is_Some (cache p' !! cacheKey owner repo) ∧
  (cache p !! cacheKey owner repo = None →
   p' = {| cache := <[cacheKey owner repo := buildLabelMaps fetchedLabels]> (cache p);
           apiCalls := apiCalls p ++ [(owner, repo)] |} ∧
   result = resolveLoop range owner repo (buildLabelMaps fetchedLabels) labels [] []) ∧
  ∀ client' range' labels',
    snd (ResolveLabelIDs client' range' p' owner repo labels') = p'.
Proof.
  intros Hok.
  destruct (cache p !! cacheKey owner repo) as [cached|] eqn:Hcache.
  - rewrite (ResolveLabelIDs_fetched _ _ _ _ _ _ _ _
               (fetchRepositoryLabels_hit client p owner repo cached Hcache)).
    split; [by rewrite Hcache|]. split; [done|].
    intros client' range' labels'.
    by rewrite (ResolveLabelIDs_fetched _ _ _ _ _ _ _ _
                  (fetchRepositoryLabels_hit client' p owner repo cached Hcache)).
  - rewrite (ResolveLabelIDs_fetched _ _ _ _ _ _ _ _
               (fetchRepositoryLabels_miss client p owner repo fetchedLabels Hcache Hok)).
    split; [cbn [cache]; by rewrite lookup_insert_eq|]. split; [done|].
    intros client' range' labels'.
    erewrite ResolveLabelIDs_fetched; [done|].
    apply fetchRepositoryLabels_hit. cbn [cache]. apply lookup_insert_eq.
Qed.

(** Whatever fails, [ResolveLabelIDs] returns no partial result with the
    error. *)
Lemma ResolveLabelIDs_error_empty (client : Client) (range : RangeOrder)
    (p p' : labelResolverImpl) (owner repo : string) (labels : list string)
    (ids : list Z) (rls : list ResolvedLabel) (err : error) :
  ResolveLabelIDs client range p owner repo labels = ((ids, rls, Some err), p') →
  ids = [] ∧ rls = [].
Proof.
  unfold ResolveLabelIDs.
  destruct (fetchRepositoryLabels client p owner repo) as [[e|c] p1].
  - by intros [= <- <- _ _].
  - cbn [resolveFetched]. intros [= Hloop _]. by eapply resolveLoop_error_empty.
Qed.

(** A failed fetch leaves the cache as it was. *)
Lemma ResolveLabelIDs_fetch_error (client : Client) (range : RangeOrder)
    (p : labelResolverImpl) (owner repo : string) (labels : list string)
    (err : string) :
  cache p !! cacheKey owner repo = None → client owner repo = inl err →
  ResolveLabelIDs client range p owner repo labels
  = (([], [],
      Some (Errorf ("failed to fetch repository labels: " +:+
                    "failed to list labels: " +:+ err))),
     {| cache := cache p; apiCalls := apiCalls p ++ [(owner, repo)] |}).
Proof.
  intros Hmiss Herr.
  by rewrite (ResolveLabelIDs_fetched _ _ _ _ _ _ _ _
                (fetchRepositoryLabels_error client p owner repo err Hmiss Herr)).
Qed.

(** The cache is empty at first and after [ClearCache]. *)
Lemma GetCacheSize_new : GetCacheSize NewLabelResolver = 0%nat.
Proof. reflexivity. Qed.

Lemma GetCacheSize_ClearCache (p : labelResolverImpl) : GetCacheSize (ClearCache p) = 0%nat.
Proof. unfold GetCacheSize, ClearCache. cbn [cache]. apply map_size_empty. Qed.

End ResolveLabelIDs.

(** ** One goroutine alone *)

(** A goroutine that runs alone does what the sequential embedding of
    [ResolveLabelIDs] does: same results, same cache, same requests. *)
Lemma alone_agrees `{GoUnicode} (client : Client) (range : RangeOrder)
    (c : gmap string cachedLabels) (calls : list (string * string))
    (owner repo : string) (labels : list string) :
  ∃ n s,
    Concurrent.run (Concurrent.start c [Concurrent.call range owner repo labels])
      (replicate n (0%nat, client owner repo)) = Some s ∧
    let '(result, p') :=
      ResolveLabelIDs client range {| cache := c; apiCalls := calls |}
        owner repo labels in
    Concurrent.goroutines s
    = [Concurrent.at_pc (Concurrent.call range owner repo labels) (Concurrent.Done result)] ∧
    Concurrent.cache (Concurrent.resolver s) = cache p' ∧
    Concurrent.mu (Concurrent.resolver s)
    = {| Concurrent.writer := false; Concurrent.readers := 0 |} ∧
    apiCalls p'
    = calls ++ map (λ r, (Concurrent.req_owner r, Concurrent.req_repo r))
                   (Concurrent.forge s).
Proof.
  unfold ResolveLabelIDs, fetchRepositoryLabels. cbn [cache apiCalls].
  destruct (c !! cacheKey owner repo) as [cached|] eqn:Hc.
  - exists 4%nat. eexists. split.
    + do 2 (cbn -[cacheKey]; rewrite ?Hc). reflexivity.
    + cbn. by rewrite app_nil_r.
  - destruct (client owner repo) as [err|fetched] eqn:Hclient.
    + exists 8%nat. eexists. split.
      * do 3 (cbn -[cacheKey]; rewrite ?Hc).
        reflexivity.
      * cbn. done.
    + exists 9%nat. eexists. split.
      * do 3 (cbn -[cacheKey]; rewrite ?Hc).
        reflexivity.
      * cbn. done.
Qed.

(** ** Goroutines racing on the cache *)

Section Race.
Context `{GoUnicode}.
Import Concurrent.

Lemma goroutines_update (gs : list goroutine) (i j : nat) (g g' gj : goroutine) :
  gs !! i = Some g → <[i := g']> gs !! j = Some gj →
  (j = i ∧ gj = g') ∨ (j ≠ i ∧ gs !! j = Some gj).
Proof.
  intros Hi Hj. destruct (decide (j = i)) as [->|Hne].
  - left. split; [done|]. apply lookup_lt_Some in Hi.
    rewrite list_lookup_insert_eq in Hj by done. by injection Hj.
  - right. split; [done|]. by rewrite list_lookup_insert_ne in Hj.
Qed.

Lemma goroutines_updated (gs : list goroutine) (i : nat) (g g' : goroutine) :
  gs !! i = Some g → <[i := g']> gs !! i = Some g'.
Proof. intros Hi. apply lookup_lt_Some in Hi. by apply list_lookup_insert_eq. Qed.

Ltac updated :=
  repeat match goal with
  | Hi : ?gs !! ?i = Some ?g, Hj : <[?i := ?g']> ?gs !! ?j = Some ?gj |- _ =>
      destruct (goroutines_update gs i j g g' gj Hi Hj) as [[-> ->]|[? ?]]; clear Hj
  end.

(** Two goroutines hold the write lock: a contradiction. *)
Ltac other_holds Hmutex Hg Hl :=
  match goal with
  | Hne : ?j ≠ ?i, Hj : _ !! ?j = Some ?gj, Lj : holds_lock ?gj |- _ =>
      destruct Hne; apply (Hmutex j i gj _ Hj Hg Lj Hl)
  end.

(** Every request is answered with a label list or with an error. *)
Lemma fetches_split (k : string) (s : state) :
  fetches k s = (fetches_ok k s + fetches_failed k s)%nat.
Proof.
  unfold fetches, fetches_ok, fetches_failed.
  induction (forge s) as [|r log IH]; [done|].
  cbn [List.filter]. destruct (for_key k r), (req_ok r); cbn [andb negb length]; lia.
Qed.

Lemma invariant_start (c0 : gmap string cachedLabels) (gs : list goroutine) :
  Forall (λ g, g_pc g = AtRLock) gs → invariant c0 (start c0 gs).
Proof.
  intros Hgs. rewrite Forall_lookup in Hgs.
  constructor; cbn [start goroutines resolver cache mu writer].
  - intros i g Hg Hlock. unfold holds_lock in Hlock. by rewrite (Hgs i g Hg) in Hlock.
  - intros i j gi gj Hi _ Hlock _. unfold holds_lock in Hlock.
    by rewrite (Hgs i gi Hi) in Hlock.
  - intros i g Hg Hmiss. unfold missed in Hmiss. by rewrite (Hgs i g Hg) in Hmiss.
  - intros k. unfold fetches_ok. cbn. split; [lia|done].
  - intros k Hk. done.
Qed.

Lemma holds_lock_missed (g : goroutine) : missed g → holds_lock g.
Proof. unfold missed, holds_lock. by destruct (g_pc g). Qed.

Lemma holds_lock_storing (g : goroutine) : storing g → holds_lock g.
Proof. unfold storing, holds_lock. by destruct (g_pc g). Qed.

(** A step that neither writes the cache nor calls the forge, taken by a
    goroutine that is not storing, keeps the count of answered requests
    and what accounts for it. *)
Lemma once_kept (c : gmap string cachedLabels) (m m' : RWMutex) (log : list request)
    (gs : list goroutine) (i : nat) (g g' : goroutine) (k : string) :
  gs !! i = Some g → ¬ storing g →
  ((fetches_ok k {| resolver := {| cache := c; mu := m |}; forge := log;
                    goroutines := gs |} ≤ 1)%nat ∧
   (fetches_ok k {| resolver := {| cache := c; mu := m |}; forge := log;
                    goroutines := gs |} = 1%nat →
    is_Some (c !! k) ∨ ∃ j gj, gs !! j = Some gj ∧ storing gj ∧ key_of gj = k)) →
  (fetches_ok k {| resolver := {| cache := c; mu := m' |}; forge := log;
                   goroutines := <[i := g']> gs |} ≤ 1)%nat ∧
  (fetches_ok k {| resolver := {| cache := c; mu := m' |}; forge := log;
                   goroutines := <[i := g']> gs |} = 1%nat →
   is_Some (c !! k) ∨
   ∃ j gj, <[i := g']> gs !! j = Some gj ∧ storing gj ∧ key_of gj = k).
Proof.
  intros Hg Hns [Hle Hone]. split; [exact Hle|]. intros H1.
  destruct (Hone H1) as [?|(j & gj & Hj & Hs & Hk)]; [by left|]. right.
  destruct (decide (j = i)) as [->|Hne].
  - rewrite Hg in Hj. injection Hj as <-. done.
  - exists j, gj. by rewrite list_lookup_insert_ne.
Qed.

(** Steps outside the write lock: [RLock], the check under the read lock,
    [RUnlock], and the loop over the tokens. *)
Lemma step_unlocked (c0 c : gmap string cachedLabels) (m m' : RWMutex)
    (log : list request) (gs : list goroutine) (i : nat) (g : goroutine) (l : pc) :
  invariant c0 {| resolver := {| cache := c; mu := m |}; forge := log; goroutines := gs |} →
  gs !! i = Some g → ¬ holds_lock g → ¬ holds_lock (at_pc g l) →
  (writer m = true → writer m' = true) →
  invariant c0 {| resolver := {| cache := c; mu := m' |}; forge := log;
                  goroutines := <[i := at_pc g l]> gs |}.
Proof.
  intros [Hwriter Hmutex Hmissed Honce Hcached] Hg Hnl Hnl' Hm'.
  cbn [resolver forge goroutines cache mu] in *.
  constructor; cbn [resolver forge goroutines cache mu].
  - intros j gj Hj Hl. updated; [done|]. eauto.
  - intros j1 j2 g1 g2 H1 H2 L1 L2. updated; try done. by eapply Hmutex.
  - intros j gj Hj Hm. updated; [by apply holds_lock_missed in Hm|]. by eapply Hmissed.
  - intros k. apply (once_kept c m m' log gs i g); [done| |done].
    intros Hs. by apply holds_lock_storing in Hs.
  - intros k Hk. apply (Hcached k Hk).
Qed.

(** [Lock]: the mutex is free, so no goroutine holds it. *)
Lemma step_acquire (c0 c : gmap string cachedLabels) (m : RWMutex)
    (log : list request) (gs : list goroutine) (i : nat) (g : goroutine) :
  invariant c0 {| resolver := {| cache := c; mu := m |}; forge := log; goroutines := gs |} →
  gs !! i = Some g → g_pc g = AtLock → writer m = false →
  invariant c0 {| resolver := {| cache := c; mu := {| writer := true; readers := 0 |} |};
                  forge := log; goroutines := <[i := at_pc g AtRecheck]> gs |}.
Proof.
  intros [Hwriter Hmutex Hmissed Honce Hcached] Hg Hpc Hw.
  cbn [resolver forge goroutines cache mu] in *.
  assert (Hfree : ∀ j gj, gs !! j = Some gj → ¬ holds_lock gj).
  { intros j gj Hj Hl. by rewrite (Hwriter j gj Hj Hl) in Hw. }
  constructor; cbn [resolver forge goroutines cache mu writer].
  - done.
  - intros j1 j2 g1 g2 H1 H2 L1 L2. updated; try done; exfalso; eapply Hfree; eauto.
  - intros j gj Hj Hm. updated; [by destruct Hm|]. by eapply Hmissed.
  - intros k. apply (once_kept c m _ log gs i g); [done| |done].
    unfold storing. rewrite Hpc. tauto.
  - intros k Hk. apply (Hcached k Hk).
Qed.

(** The check under the write lock. *)
Lemma step_recheck (c0 c : gmap string cachedLabels) (m : RWMutex)
    (log : list request) (gs : list goroutine) (i : nat) (g : goroutine) (l : pc) :
  invariant c0 {| resolver := {| cache := c; mu := m |}; forge := log; goroutines := gs |} →
  gs !! i = Some g → g_pc g = AtRecheck →
  holds_lock (at_pc g l) → (missed (at_pc g l) → c !! key_of g = None) →
  invariant c0 {| resolver := {| cache := c; mu := m |}; forge := log;
                  goroutines := <[i := at_pc g l]> gs |}.
Proof.
  intros [Hwriter Hmutex Hmissed Honce Hcached] Hg Hpc Hl' Hm'.
  cbn [resolver forge goroutines cache mu] in *.
  assert (Hl : holds_lock g) by (unfold holds_lock; by rewrite Hpc).
  constructor; cbn [resolver forge goroutines cache mu writer].
  - intros j gj Hj _. updated; eauto.
  - intros j1 j2 g1 g2 H1 H2 L1 L2. updated; try done.
    + by other_holds Hmutex Hg Hl.
    + by other_holds Hmutex Hg Hl.
    + by eapply Hmutex.
  - intros j gj Hj Hm. updated; [by apply Hm'|]. by eapply Hmissed.
  - intros k. apply (once_kept c m m log gs i g); [done| |done].
    unfold storing. rewrite Hpc. tauto.
  - intros k Hk. apply (Hcached k Hk).
Qed.

(** The call of the forge, answered with an error or with a label list. *)
Lemma step_answer (c0 c : gmap string cachedLabels) (m : RWMutex)
    (log : list request) (gs : list goroutine) (i : nat) (g : goroutine)
    (ok : bool) (l : pc) :
  invariant c0 {| resolver := {| cache := c; mu := m |}; forge := log; goroutines := gs |} →
  gs !! i = Some g → g_pc g = AtListRepoLabels →
  holds_lock (at_pc g l) → (if ok then storing (at_pc g l) else ¬ missed (at_pc g l)) →
  invariant c0
    {| resolver := {| cache := c; mu := m |};
       forge := log ++ [{| req_owner := g_owner g; req_repo := g_repo g; req_ok := ok |}];
       goroutines := <[i := at_pc g l]> gs |}.
Proof.
  intros [Hwriter Hmutex Hmissed Honce Hcached] Hg Hpc Hl' Hok.
  cbn [resolver forge goroutines cache mu] in *.
  assert (Hl : holds_lock g) by (unfold holds_lock; by rewrite Hpc).
  assert (Hmiss : c !! key_of g = None).
  { apply (Hmissed i g Hg). unfold missed. by rewrite Hpc. }
  assert (Hns : ¬ storing g) by (unfold storing; rewrite Hpc; tauto).
  constructor; cbn [resolver forge goroutines cache mu writer].
  - intros j gj Hj _. updated; eauto.
  - intros j1 j2 g1 g2 H1 H2 L1 L2. updated; try done.
    + by other_holds Hmutex Hg Hl.
    + by other_holds Hmutex Hg Hl.
    + by eapply Hmutex.
  - intros j gj Hj Hm. updated; [done|]. by eapply Hmissed.
  - intros k.
    pose proof (once_kept c m m log gs i g (at_pc g l) k Hg Hns (Honce k)) as [Hle Hone].
    pose proof (Honce (key_of g)) as [Hle_g Hone_g].
    unfold fetches_ok in *. cbn [forge] in *.
    rewrite List.filter_app, length_app. cbn [List.filter].
    change (for_key k {| req_owner := g_owner g; req_repo := g_repo g; req_ok := ok |})
      with (bool_decide (key_of g = k)).
    cbn [req_ok].
    destruct (bool_decide (key_of g = k)) eqn:Hk; destruct ok; cbn [andb length];
      rewrite ?Nat.add_0_r; try done.
    apply bool_decide_eq_true in Hk as <-.
    assert (length (List.filter (λ r, for_key (key_of g) r && req_ok r) log) = 0%nat) as ->.
    { destruct (length (List.filter (λ r, for_key (key_of g) r && req_ok r) log))
        as [|[|n]] eqn:Hn; [done| |lia].
      destruct (Hone_g eq_refl) as [[cached Hcd]|(j & gj & Hj & Hs & Hkj)]; [congruence|].
      apply holds_lock_storing in Hs as Hlj.
      rewrite (Hmutex j i gj g Hj Hg Hlj Hl) in Hj.
      rewrite Hg in Hj. injection Hj as <-. done. }
    split; [done|]. intros _. right. exists i, (at_pc g l).
    by rewrite (goroutines_updated gs i g).
  - intros k Hk. destruct (Hcached k Hk) as [Hck Hnone]. split; [done|].
    unfold fetches in *. cbn [forge] in *.
    rewrite List.filter_app, length_app, Hnone. cbn [List.filter].
    change (for_key k {| req_owner := g_owner g; req_repo := g_repo g; req_ok := ok |})
      with (bool_decide (key_of g = k)).
    rewrite bool_decide_eq_false_2; [done|].
    intros <-. rewrite Hmiss in Hck. by destruct Hck.
Qed.

(** The maps are built and cached. *)
Lemma step_store (c0 c : gmap string cachedLabels) (m : RWMutex)
    (log : list request) (gs : list goroutine) (i : nat) (g : goroutine)
    (labels : list Label) (l : pc) (cached : cachedLabels) :
  invariant c0 {| resolver := {| cache := c; mu := m |}; forge := log; goroutines := gs |} →
  gs !! i = Some g → g_pc g = AtStore labels →
  holds_lock (at_pc g l) → ¬ missed (at_pc g l) →
  invariant c0
    {| resolver := {| cache := <[key_of g := cached]> c; mu := m |};
       forge := log; goroutines := <[i := at_pc g l]> gs |}.
Proof.
  intros [Hwriter Hmutex Hmissed Honce Hcached] Hg Hpc Hl' Hnm.
  cbn [resolver forge goroutines cache mu] in *.
  assert (Hl : holds_lock g) by (unfold holds_lock; by rewrite Hpc).
  constructor; cbn [resolver forge goroutines cache mu writer].
  - intros j gj Hj _. updated; eauto.
  - intros j1 j2 g1 g2 H1 H2 L1 L2. updated; try done.
    + by other_holds Hmutex Hg Hl.
    + by other_holds Hmutex Hg Hl.
    + by eapply Hmutex.
  - intros j gj Hj Hm. updated; [done|].
    apply holds_lock_missed in Hm. by other_holds Hmutex Hg Hl.
  - intros k. destruct (Honce k) as [Hle Hone]. split; [exact Hle|]. intros H1.
    destruct (Hone H1) as [Hck|(j & gj & Hj & Hs & Hk)].
    + left. by apply lookup_insert_is_Some'; right.
    + destruct (decide (j = i)) as [->|Hne].
      * left. rewrite Hg in Hj. injection Hj as <-. rewrite <- Hk.
        rewrite lookup_insert_eq. by eexists.
      * right. exists j, gj. by rewrite list_lookup_insert_ne.
  - intros k Hk. destruct (Hcached k Hk) as [Hck Hnone]. split; [|exact Hnone].
    by apply lookup_insert_is_Some'; right.
Qed.

(** The deferred [Unlock]. *)
Lemma step_release (c0 c : gmap string cachedLabels) (m m' : RWMutex)
    (log : list request) (gs : list goroutine) (i : nat) (g : goroutine)
    (fetched : error + cachedLabels) (l : pc) :
  invariant c0 {| resolver := {| cache := c; mu := m |}; forge := log; goroutines := gs |} →
  gs !! i = Some g → g_pc g = AtUnlock fetched → ¬ holds_lock (at_pc g l) →
  invariant c0 {| resolver := {| cache := c; mu := m' |}; forge := log;
                  goroutines := <[i := at_pc g l]> gs |}.
Proof.
  intros [Hwriter Hmutex Hmissed Honce Hcached] Hg Hpc Hnl'.
  cbn [resolver forge goroutines cache mu] in *.
  assert (Hl : holds_lock g) by (unfold holds_lock; by rewrite Hpc).
  constructor; cbn [resolver forge goroutines cache mu writer].
  - intros j gj Hj Lj. updated; [done|]. by other_holds Hmutex Hg Hl.
  - intros j1 j2 g1 g2 H1 H2 L1 L2. updated; try done. by eapply Hmutex.
  - intros j gj Hj Hm. updated; [by apply holds_lock_missed in Hm|]. by eapply Hmissed.
  - intros k. apply (once_kept c m m' log gs i g); [done| |done].
    unfold storing. rewrite Hpc. tauto.
  - intros k Hk. apply (Hcached k Hk).
Qed.

(** Every step keeps the invariant. *)
Lemma invariant_step (c0 : gmap string cachedLabels) (s s' : state) (i : nat)
    (resp : string + list Label) :
  invariant c0 s → step s i resp = Some s' → invariant c0 s'.
Proof.
  intros Hinv Hstep. unfold step in Hstep.
  destruct (goroutines s !! i) as [g|] eqn:Hg; [|done]. cbn [mbind option_bind] in Hstep.
  destruct s as [[c m] log gs].
  cbn [resolver forge goroutines cache mu with_mu] in *.
  destruct (g_pc g) eqn:Hpc.
  - destruct (writer m) eqn:Hw; [done|]. injection Hstep as <-.
    apply (step_unlocked c0 c m); try done; try congruence;
      unfold holds_lock; cbn; rewrite ?Hpc; tauto.
  - destruct (c !! cacheKey (g_owner g) (g_repo g)); injection Hstep as <-;
      apply (step_unlocked c0 c m); try done; try congruence;
      unfold holds_lock; cbn; rewrite ?Hpc; tauto.
  - injection Hstep as <-.
    apply (step_unlocked c0 c m); try done; try congruence;
      unfold holds_lock; cbn; rewrite ?Hpc; tauto.
  - injection Hstep as <-.
    apply (step_unlocked c0 c m); try done; try congruence;
      unfold holds_lock; cbn; rewrite ?Hpc; tauto.
  - destruct (writer m) eqn:Hw; [done|]. destruct (Nat.eqb _ _); [|done].
    injection Hstep as <-. by apply (step_acquire c0 c m).
  - destruct (c !! cacheKey (g_owner g) (g_repo g)) eqn:Hc; injection Hstep as <-.
    + apply (step_recheck c0 c m); try done; cbn; tauto.
    + apply (step_recheck c0 c m); try done; cbn; tauto.
  - destruct resp as [err|labels]; injection Hstep as <-.
    + apply (step_answer c0 c m log gs i g false); try done; cbn; tauto.
    + apply (step_answer c0 c m log gs i g true); try done; cbn; tauto.
  - injection Hstep as <-.
    apply (step_store c0 c m log gs i g labels); try done; cbn; tauto.
  - injection Hstep as <-.
    apply (step_release c0 c m _ log gs i g fetched); try done; cbn; tauto.
  - injection Hstep as <-.
    apply (step_unlocked c0 c m); try done; try congruence;
      unfold holds_lock; cbn; rewrite ?Hpc; tauto.
  - done.
Qed.

Lemma invariant_run (c0 : gmap string cachedLabels) (sched : schedule) (s s' : state) :
  invariant c0 s → run s sched = Some s' → invariant c0 s'.
Proof.
  revert s. induction sched as [|[i resp] sched IH]; intros s Hinv Hrun.
  - by injection Hrun as <-.
  - cbn [run] in Hrun. destruct (step s i resp) as [s1|] eqn:Hstep; [|done].
    cbn [mbind option_bind] in Hrun. eapply IH; [|done]. by eapply invariant_step.
Qed.

(** C9 (amended): whatever the number of goroutines that call
    [ResolveLabelIDs] on one resolver and however their steps interleave,
    at most one request for a cache key is answered by the forge with a
    label list, and no request is sent for a key that is cached from the
    start; every other request for the key is one that the forge answered
    with an error (a failed fetch caches nothing, so the next goroutine
    fetches again).  So at most one request is sent as long as the forge
    does not fail. *)
Theorem C9_at_most_one_fetch (c0 : gmap string cachedLabels) (gs : list goroutine)
    (sched : schedule) (s : state) (k : string) :
  Forall (λ g, g_pc g = AtRLock) gs →
  run (start c0 gs) sched = Some s →
  (fetches_ok k s ≤ 1)%nat ∧
  (fetches k s ≤ 1 + fetches_failed k s)%nat ∧
  (fetches_failed k s = 0%nat → fetches k s ≤ 1)%nat ∧
  (is_Some (c0 !! k) → fetches k s = 0%nat).
Proof.
  intros Hgs Hrun.
  pose proof (invariant_run c0 sched _ s (invariant_start c0 gs Hgs) Hrun)
    as [_ _ _ Honce Hcached].
  destruct (Honce k) as [Hle _]. rewrite (fetches_split k s).
  split; [done|]. split; [lia|]. split; [lia|].
  intros Hk. destruct (Hcached k Hk) as [_ Hnone].
  rewrite (fetches_split k s) in Hnone. lia.
Qed.

End Race.

(** C9, as stated, fails: when the forge fails at the first caller's
    request, nothing is cached, and the second caller sends a request of
    its own. *)
Lemma C9_counterexample :
  ∃ s, Concurrent.run (H := asciiOnly) (Concurrent.start ∅ twoCallers)
         (failingSchedule readyLabels) = Some s ∧
       Forall (λ g, ∃ result, Concurrent.g_pc g = Concurrent.Done result)
         (Concurrent.goroutines s) ∧
       Concurrent.fetches (cacheKey "goern" "forgejo-mcp") s = 2%nat.
Proof.
  eexists. split; [vm_compute; reflexivity|]. split.
  - repeat constructor; eexists; reflexivity.
  - vm_compute. reflexivity.
Qed.

(** Two callers race on an empty cache and the forge answers: one request
    is sent. *)
Lemma C9_at_most_one_fetch_witness :
  ∃ s, Concurrent.run (H := asciiOnly) (Concurrent.start ∅ twoCallers)
         (raceSchedule readyLabels) = Some s ∧
       Forall (λ g, ∃ result, Concurrent.g_pc g = Concurrent.Done result)
         (Concurrent.goroutines s) ∧
       Concurrent.fetches (cacheKey "goern" "forgejo-mcp") s = 1%nat ∧
       (Concurrent.fetches (cacheKey "goern" "forgejo-mcp") s ≤ 1)%nat.
Proof.
  eexists. split; [vm_compute; reflexivity|]. split; [|split].
  - repeat constructor; eexists; reflexivity.
  - vm_compute. reflexivity.
  - eapply (C9_at_most_one_fetch (H := asciiOnly) ∅ twoCallers (raceSchedule readyLabels)).
    + repeat constructor.
    + vm_compute. reflexivity.
    + vm_compute. reflexivity.
Defined.

(** ** The claims on concrete inputs *)

(** C1, as stated, fails: a label named [0] is a name of the catalog, but
    the token [0] parses as an integer and is refused as an ID. *)
Lemma C1_counterexample :
  let client := forgeWith [ {| label_ID := 5; label_Name := "0" |} ] in
  ∃ c p',
    fetchRepositoryLabels (H := asciiOnly) client NewLabelResolver "goern" "forgejo-mcp"
    = (inr c, p') ∧
    Forall (token_resolves_as_specified (H := asciiOnly) c) ["0"] ∧
    ResolveLabelIDs (H := asciiOnly) client rangeDefault NewLabelResolver
      "goern" "forgejo-mcp" ["0"]
    = (([], [], Some (ResolutionError (NewResolutionError "0" "ID must be positive" []))),
       p').
Proof.
  eexists _, _. split; [reflexivity|]. split.
  - constructor; [|constructor]. right. by eexists.
  - vm_compute. reflexivity.
Qed.

(** An ID of the catalog, a name in another casing and an ID unknown to the
    catalog, in one call. *)
Lemma C1_one_entry_per_token_witness :
  let client := forgeWith readyLabels in
  ∃ ids rls,
    ResolveLabelIDs (H := asciiOnly) client rangeDefault NewLabelResolver
      "goern" "forgejo-mcp" [" 47 "; "READY-to-test"; "1234"]
    = ((ids, rls, None),
       snd (fetchRepositoryLabels (H := asciiOnly) client NewLabelResolver
              "goern" "forgejo-mcp")) ∧
    entry_per_token (H := asciiOnly) rangeDefault "goern" "forgejo-mcp"
      (buildLabelMaps (H := asciiOnly) readyLabels)
      [" 47 "; "READY-to-test"; "1234"] ids rls.
Proof.
  intros client.
  apply (C1_one_entry_per_token (H := asciiOnly) client rangeDefault NewLabelResolver).
  - reflexivity.
  - constructor; [|constructor; [|constructor; [|constructor]]].
    + left. exists 47. split; [reflexivity|lia].
    + right. split; [discriminate|]. split; [reflexivity|]. by eexists.
    + left. exists 1234. split; [reflexivity|lia].
Defined.

(** C2, as stated, fails: for an ID that the catalog has with the empty
    string for name, the display name is the token as typed, not the
    catalog's name. *)
Lemma C2_counterexample :
  let c := buildLabelMaps (H := asciiOnly) [ {| label_ID := 5; label_Name := "" |} ] in
  idToName c !! 5 = Some "" ∧
  ∃ rl, resolveToken (H := asciiOnly) rangeDefault "goern" "forgejo-mcp" c "5"
        = inr (5, rl) ∧
        Name rl ≠ numericName_as_specified c 5 "5".
Proof. split; [reflexivity|]. eexists. split; [reflexivity|]. discriminate. Qed.

(** An ID unknown to the catalog is displayed as typed. *)
Lemma C2_numeric_token_witness :
  let client := forgeWith readyLabels in
  resolveToken (H := asciiOnly) rangeDefault "goern" "forgejo-mcp"
    (buildLabelMaps (H := asciiOnly) readyLabels) " 1234 "
  = inr (1234, {| ID := 1234; Name := "1234" |}) ∧
  ResolveLabelIDs (H := asciiOnly) client rangeDefault NewLabelResolver
    "goern" "forgejo-mcp" [" 1234 "]
  = (([1234], [{| ID := 1234; Name := "1234" |}], None),
     snd (fetchRepositoryLabels (H := asciiOnly) client NewLabelResolver
            "goern" "forgejo-mcp")).
Proof.
  intros client.
  apply (C2_numeric_token (H := asciiOnly) client rangeDefault NewLabelResolver _
           "goern" "forgejo-mcp" (buildLabelMaps (H := asciiOnly) readyLabels)
           " 1234 " 1234).
  - reflexivity.
  - reflexivity.
  - lia.
Defined.

(** [Ready-To-MERGE] resolves to the ID of [ready-to-merge]. *)
Lemma C3_name_lookup_witness :
  ∃ id,
    nameToID (buildLabelMaps (H := asciiOnly) readyLabels) !! "ready-to-merge" = Some id ∧
    resolveToken (H := asciiOnly) rangeDefault "goern" "forgejo-mcp"
      (buildLabelMaps (H := asciiOnly) readyLabels) " Ready-To-MERGE"
    = inr (id, {| ID := id; Name := "Ready-To-MERGE" |}).
Proof.
  apply (proj2 (C3_name_lookup (H := asciiOnly) rangeDefault "goern" "forgejo-mcp"
                  (buildLabelMaps (H := asciiOnly) readyLabels) " Ready-To-MERGE"
                  ltac:(discriminate) eq_refl)
           readyLabels {| label_ID := 47; label_Name := "ready-to-merge" |}).
  - reflexivity.
  - apply elem_of_cons. by left.
  - reflexivity.
Defined.

(** C4, as stated, fails: of four keys that contain the input, one is not
    suggested. *)
Lemma C4_counterexample :
  let m := nameToID (buildLabelMaps (H := asciiOnly)
             [ {| label_ID := 1; label_Name := "bug" |};
               {| label_ID := 2; label_Name := "bug-ui" |};
               {| label_ID := 3; label_Name := "bug-api" |};
               {| label_ID := 4; label_Name := "bug-docs" |} ]) in
  ¬ (∀ k, k ∈ getSuggestions (H := asciiOnly) rangeDefault m "bu"
          ↔ is_Some (m !! k) ∧ contained (H := asciiOnly) "bu" k).
Proof.
  intros m Hiff.
  destruct (getSuggestions_truncates (H := asciiOnly) rangeDefault m "bu")
    as (k & Hk & Hnot).
  - by intros ?.
  - vm_compute. lia.
  - by apply Hnot, Hiff.
Qed.

(** The suggestions for [Ready] in the catalog of the example. *)
Lemma C4_getSuggestions_witness :
  let m := nameToID (buildLabelMaps (H := asciiOnly) readyLabels) in
  let suggestions := getSuggestions (H := asciiOnly) rangeDefault m "Ready" in
  (length suggestions ≤ 3)%nat ∧
  NoDup suggestions ∧
  (∀ k, k ∈ suggestions → is_Some (m !! k) ∧ contained (H := asciiOnly) "Ready" k) ∧
  length suggestions = Nat.min 3 (length (matching_keys (H := asciiOnly) m "Ready")) ∧
  ((length (matching_keys (H := asciiOnly) m "Ready") ≤ 3)%nat →
   ∀ k, k ∈ suggestions ↔ is_Some (m !! k) ∧ contained (H := asciiOnly) "Ready" k) ∧
  getSuggestions (H := asciiOnly) rangeDefault m "ready"
  ≡ₚ ["ready-to-merge"; "ready-to-test"; "ready-to-review"].
Proof.
  intros m.
  apply (C4_getSuggestions (H := asciiOnly) rangeDefault m "Ready").
  by intros ?.
Defined.

(** C5, as stated, fails: the tokens are looked at in their order, after
    the fetch.  With the token [0] before a token of three spaces, the call
    fails at [0], with the reason [ID must be positive]; and when the forge
    does not answer, the call on the empty token alone returns the error of
    the fetch, which is no resolution error. *)
Lemma C5_counterexample :
  let claimed : list Z * list ResolvedLabel * option error :=
    ([], [],
     Some (ResolutionError
             {| Input := ""; Reason := "empty label not allowed"; Suggestions := [] |})) in
  let answered :=
    fst (ResolveLabelIDs (H := asciiOnly) (forgeWith readyLabels) rangeDefault
           NewLabelResolver "goern" "forgejo-mcp" ["0"; "   "]) in
  let unanswered :=
    fst (ResolveLabelIDs (H := asciiOnly) (λ _ _, inl "connection refused") rangeDefault
           NewLabelResolver "owner" "repo" [""]) in
  TrimSpace (H := asciiOnly) "   " = "" ∧ TrimSpace (H := asciiOnly) "" = "" ∧
  answered
  = ([], [],
     Some (ResolutionError
             {| Input := "0"; Reason := "ID must be positive"; Suggestions := [] |})) ∧
  answered ≠ claimed ∧
  unanswered
  = ([], [],
     Some (Errorf "failed to fetch repository labels: failed to list labels: connection refused")) ∧
  unanswered ≠ claimed.
Proof.
  cbv zeta. split; [reflexivity|]. split; [reflexivity|].
  split; [vm_compute; reflexivity|]. split; [vm_compute; discriminate|].
  split; [vm_compute; reflexivity|]. vm_compute. discriminate.
Qed.

(** A token of three spaces after two tokens that resolve. *)
Lemma C5_empty_token_witness :
  let client := forgeWith readyLabels in
  ResolveLabelIDs (H := asciiOnly) client rangeDefault NewLabelResolver
    "goern" "forgejo-mcp" (["47"; "bug"] ++ "   " :: ["no-such-label"])
  = (([], [],
      Some (ResolutionError
              {| Input := ""; Reason := "empty label not allowed"; Suggestions := [] |})),
     snd (fetchRepositoryLabels (H := asciiOnly) client NewLabelResolver
            "goern" "forgejo-mcp")).
Proof.
  intros client.
  apply (C5_empty_token (H := asciiOnly) client rangeDefault NewLabelResolver _
           "goern" "forgejo-mcp" (buildLabelMaps (H := asciiOnly) readyLabels)).
  - reflexivity.
  - reflexivity.
  - repeat constructor; eexists; reflexivity.
Defined.

(** The first token fails; the catalog was fetched with one request and
    stays cached, and a later call sends none. *)
Lemma C10_cache_kept_on_failure_witness :
  let client := forgeWith readyLabels in
  let '(result, p') :=
    ResolveLabelIDs (H := asciiOnly) client rangeDefault NewLabelResolver
      "goern" "forgejo-mcp" ["no-such-label"; "47"] in
  (∃ e, result = ([], [], Some (ResolutionError e))) ∧
  is_Some (cache p' !! cacheKey "goern" "forgejo-mcp") ∧
  apiCalls p' = [("goern", "forgejo-mcp")] ∧
  ∀ client' range' labels',
    snd (ResolveLabelIDs (H := asciiOnly) client' range' p' "goern" "forgejo-mcp" labels')
    = p'.
Proof.
  intros client.
  pose proof (C10_cache_kept_on_failure (H := asciiOnly) client rangeDefault
                NewLabelResolver "goern" "forgejo-mcp" ["no-such-label"; "47"]
                readyLabels eq_refl) as Hkept.
  destruct (ResolveLabelIDs client rangeDefault NewLabelResolver
              "goern" "forgejo-mcp" ["no-such-label"; "47"]) as [result p'] eqn:Hcall.
  destruct Hkept as (Hcached & Hmiss & Hlater).
  destruct (Hmiss eq_refl) as [-> ->].
  split; [eexists; vm_compute; reflexivity|]. split; [done|]. split; [reflexivity|done].
Defined.

(** * Further properties *)

(** ** Comma-separated filters *)

Section RunnerProperties.
Context `{GoUnicode}.

Lemma Split_length (s : string) (sep : ascii) :
  length (Split s sep) = S (countByte sep s).
Proof.
  induction s as [|c s IH]; [done|]. cbn [Split countByte].
  destruct (decide (c = sep)); cbn [length Nat.add]; [by rewrite IH|].
  destruct (Split s sep) as [|piece pieces]; cbn [length] in *; [done|]. exact IH.
Qed.

Lemma Split_freeOf (s : string) (sep : ascii) :
  Forall (freeOf sep) (Split s sep).
Proof.
  induction s as [|c s IH]; [by repeat constructor|]. cbn [Split].
  destruct (decide (c = sep)) as [->|Hne]; [by constructor|].
  destruct (Split s sep) as [|piece pieces]; [|inversion_clear IH as [|?? Hp Hps]].
  - repeat constructor. unfold freeOf. cbn [countByte]. by rewrite decide_False.
  - constructor; [|done]. unfold freeOf in *. cbn [countByte]. by rewrite decide_False.
Qed.

(** Joining pieces that are free of the separator and splitting again gives
    the pieces back. *)
Lemma Split_concat (pieces : list string) :
  pieces ≠ [] → Forall (freeOf ","%char) pieces →
  Split (String.concat "," pieces) ","%char = pieces.
Proof.
  intros Hne Hfree. induction Hfree as [|piece rest Hpiece Hrest IH]; [done|]. clear Hne.
  assert (Hsplit : ∀ tail, Split tail ","%char ≠ [] →
            Split (piece +:+ tail) ","%char
            = match Split tail ","%char with
              | h :: t => (piece +:+ h) :: t
              | [] => []
              end).
  { intros tail Htail. clear IH Hrest. unfold freeOf in Hpiece.
    induction piece as [|c piece IHp].
    - change ("" +:+ tail) with tail. destruct (Split tail ","%char); done.
    - cbn [countByte] in Hpiece. destruct (decide (c = ","%char)) as [|Hc]; [done|].
      rewrite string_app_cons. cbn [Split]. rewrite decide_False by done.
      rewrite IHp by done. destruct (Split tail ","%char); [done|].
      by rewrite string_app_cons. }
  destruct rest as [|piece' rest].
  - cbn [String.concat]. rewrite <- (string_app_nil_r piece) at 1.
    rewrite Hsplit by done. cbn [Split]. by rewrite string_app_nil_r.
  - change (String.concat "," (piece :: piece' :: rest))
      with (piece +:+ String "," (String.concat "," (piece' :: rest))).
    rewrite Hsplit; cbn [Split]; rewrite decide_True by done; [|done].
    rewrite IH by done. by rewrite string_app_nil_r.
Qed.

Lemma parseStringList_loop_filter (parts result : list string) :
  parseStringList_loop parts result
  = result ++ filter (λ t, t ≠ "") (TrimSpace <$> parts).
Proof.
  revert result. induction parts as [|part parts IH]; intros result.
  - by rewrite app_nil_r.
  - cbn [parseStringList_loop fmap list_fmap].
    destruct (decide (TrimSpace part ≠ "")) as [Hne|Hempty].
    + rewrite IH, filter_cons_True by done. by rewrite <- app_assoc.
    + by rewrite IH, filter_cons_False.
Qed.

Lemma parseStringList_filter (s : string) :
  s ≠ "" → parseStringList s = filter (λ t, t ≠ "") (TrimSpace <$> Split s ","%char).
Proof.
  intros Hs. unfold parseStringList. rewrite decide_False by done.
  by rewrite parseStringList_loop_filter.
Qed.

Lemma Split_onlySeparators (s : string) :
  onlySeparators s = true → Forall (λ piece, allSpaces piece = true) (Split s ","%char).
Proof.
  induction s as [|c s IH]; [by repeat constructor|].
  cbn [onlySeparators Split]. intros [Hc Hs]%andb_true_iff. specialize (IH Hs).
  destruct (decide (c = ","%char)) as [->|Hne]; [by constructor|].
  rewrite bool_decide_eq_false_2 in Hc by done. cbn [orb] in Hc.
  destruct (Split s ","%char) as [|piece pieces]; [|inversion_clear IH as [|?? Hp Hps]].
  - repeat constructor. cbn [allSpaces]. by rewrite Hc.
  - constructor; [|done]. cbn [allSpaces]. by rewrite Hc, Hp.
Qed.

Lemma concat_nonempty (piece : string) (rest : list string) :
  piece ≠ "" → String.concat "," (piece :: rest) ≠ "".
Proof.
  intros Hne. destruct piece as [|c piece]; [done|].
  destruct rest; [done|].
  change (String.concat "," (String c piece :: s :: rest))
    with (String c (piece +:+ "," +:+ String.concat "," (s :: rest))).
  done.
Qed.

(** X1: [parseStringList] never returns an empty entry: every entry is a
    piece of the input between two commas, trimmed, and there are at most
    as many entries as pieces (one more than commas). *)
Theorem X1_parseStringList_entries (s : string) :
  Forall (λ entry, entry ≠ "" ∧
            ∃ piece, piece ∈ Split s ","%char ∧ freeOf ","%char piece ∧
                     entry = TrimSpace piece)
         (parseStringList s) ∧
  (length (parseStringList s) ≤ S (countByte ","%char s))%nat.
Proof.
  destruct (decide (s = "")) as [->|Hs].
  { unfold parseStringList. rewrite decide_True by done. split; [constructor|cbn; lia]. }
  rewrite (parseStringList_filter s Hs). split.
  - apply Forall_forall. intros entry [Hentry Hin]%list_elem_of_filter.
    split; [done|]. apply list_elem_of_fmap in Hin as (piece & -> & Hpiece).
    exists piece. split; [done|]. split; [|done].
    pose proof (Split_freeOf s ","%char) as Hfree. rewrite Forall_forall in Hfree.
    by apply Hfree.
  - rewrite <- Split_length. etrans; [apply length_filter|]. by rewrite length_fmap.
Qed.

(** X2: a list of entries that are not empty, hold no comma and are
    unchanged by trimming is read back by [parseStringList] from its
    comma-joined form. *)
Theorem X2_parseStringList_concat (entries : list string) :
  Forall (λ entry, entry ≠ "" ∧ freeOf ","%char entry ∧ TrimSpace entry = entry) entries →
  parseStringList (String.concat "," entries) = entries.
Proof.
  intros Hentries. destruct entries as [|entry rest]; [done|].
  assert (Hne : String.concat "," (entry :: rest) ≠ "").
  { apply concat_nonempty. by inversion_clear Hentries as [|?? [? _] _]. }
  rewrite (parseStringList_filter _ Hne), Split_concat; [|done|].
  - clear Hne. induction Hentries as [|e es (He & _ & Htrim) _ IH]; [done|].
    cbn [fmap list_fmap]. rewrite Htrim, filter_cons_True by done. by f_equal.
  - eapply Forall_impl; [done|]. by intros e (_ & He & _).
Qed.

(** X3: the repository-level job search and the run listing drop the
    entries that are empty after trimming; the organisation-level and
    user-level job searches keep them: their filter has one entry per piece
    of the argument, and the repository-level filter is what is left of it
    without the empty entries. *)
Theorem X3_label_filters (labels : string) :
  SearchRunnerJobsFn_Labels labels
  = filter (λ t, t ≠ "") (SearchOrgRunnerJobsFn_Labels labels) ∧
  length (SearchOrgRunnerJobsFn_Labels labels)
  = (if decide (labels = "") then 0 else S (countByte ","%char labels))%nat.
Proof.
  unfold SearchRunnerJobsFn_Labels, SearchOrgRunnerJobsFn_Labels.
  destruct (decide (labels = "")) as [->|Hne].
  - by rewrite !decide_False by (by intros ?).
  - rewrite !decide_True by done. split; [by apply parseStringList_filter|].
    by rewrite length_fmap, Split_length.
Qed.

(** X4: an argument made of commas and white space only gives the empty
    filter. *)
Theorem X4_parseStringList_separators (s : string) :
  onlySeparators s = true → parseStringList s = [].
Proof.
  intros Hs. destruct (decide (s = "")) as [->|Hne]; [done|].
  rewrite (parseStringList_filter s Hne).
  pose proof (Split_onlySeparators s Hs) as Hpieces.
  induction Hpieces as [|piece pieces Hpiece _ IH]; [done|].
  cbn [fmap list_fmap]. rewrite filter_cons_False; [done|].
  rewrite (TrimSpace_allSpaces piece Hpiece). by intros ?.
Qed.

End RunnerProperties.

(** Three statuses, read back. *)
Lemma X2_parseStringList_concat_witness :
  parseStringList (H := asciiOnly) (String.concat "," ["success"; "failure"; "running"])
  = ["success"; "failure"; "running"].
Proof.
  apply (X2_parseStringList_concat (H := asciiOnly)).
  repeat (constructor; [by repeat split|]). constructor.
Defined.

(** Commas and blanks. *)
Lemma X4_parseStringList_separators_witness :
  parseStringList (H := asciiOnly) " , ,, " = [].
Proof. apply (X4_parseStringList_separators (H := asciiOnly)). reflexivity. Defined.

(** The two filters on one argument. *)
Example label_filters_differ :
  SearchRunnerJobsFn_Labels (H := asciiOnly) "ubuntu, ,docker," = ["ubuntu"; "docker"] ∧
  SearchOrgRunnerJobsFn_Labels (H := asciiOnly) "ubuntu, ,docker,"
  = ["ubuntu"; ""; "docker"; ""].
Proof. split; reflexivity. Qed.

(** The cases of the package's test of [parseStringList]. *)
Example parseStringList_tests :
  parseStringList (H := asciiOnly) "success" = ["success"] ∧
  parseStringList (H := asciiOnly) "success, failure, running"
  = ["success"; "failure"; "running"] ∧
  parseStringList (H := asciiOnly) "  success  ,  failure  ,  running  "
  = ["success"; "failure"; "running"] ∧
  parseStringList (H := asciiOnly) "" = [] ∧
  parseStringList (H := asciiOnly) ",," = [] ∧
  parseStringList (H := asciiOnly) "success,failure," = ["success"; "failure"] ∧
  parseStringList (H := asciiOnly) ",success,failure" = ["success"; "failure"].
Proof. repeat split; reflexivity. Qed.

(** ** More on [ResolveLabelIDs] *)

Section ResolverProperties.
Context `{GoUnicode}.

(** What one token contributes when it resolves: the ID of the
    [ResolvedLabel] is the ID, and the display name is not empty. *)
Lemma resolveToken_entry (range : RangeOrder) (owner repo : string)
    (c : cachedLabels) (tok : string) (id : Z) (rl : ResolvedLabel) :
  resolveToken range owner repo c tok = inr (id, rl) → ID rl = id ∧ Name rl ≠ "".
Proof.
  unfold resolveToken.
  destruct (decide (TrimSpace tok = "")) as [|Hne]; [done|].
  destruct (ParseInt (TrimSpace tok)) as [n|].
  - destruct (decide (n ≤ 0)); [done|].
    destruct (decide (findNameByID (idToName c) n ≠ "")); by intros [= <- <-].
  - destruct (lookupByName (nameToID c) (TrimSpace tok)); [|done]. by intros [= <- <-].
Qed.

(** The error of a token that does not resolve carries the trimmed token,
    and is of one of three kinds. *)
Lemma resolveToken_error (range : RangeOrder) (owner repo : string)
    (c : cachedLabels) (tok : string) (e : LabelResolutionError) :
  resolveToken range owner repo c tok = inl e →
  Input e = TrimSpace tok ∧
  ((Reason e = "empty label not allowed" ∧ Suggestions e = [] ∧ TrimSpace tok = "") ∨
   (Reason e = "ID must be positive" ∧ Suggestions e = [] ∧
    ∃ n, ParseInt (TrimSpace tok) = Some n ∧ n ≤ 0) ∨
   (Reason e = "not found in repository " +:+ owner +:+ "/" +:+ repo ∧
    Suggestions e = getSuggestions range (nameToID c) (TrimSpace tok) ∧
    ParseInt (TrimSpace tok) = None ∧ nameToID c !! ToLower (TrimSpace tok) = None)).
Proof.
  unfold resolveToken.
  destruct (decide (TrimSpace tok = "")) as [Hempty|Hne].
  { intros [= <-]. cbn. split; [done|]. by left. }
  destruct (ParseInt (TrimSpace tok)) as [n|] eqn:Hparse.
  - destruct (decide (n ≤ 0)).
    + intros [= <-]. cbn. split; [done|]. right. left. eauto.
    + by destruct (decide (findNameByID (idToName c) n ≠ "")).
  - unfold lookupByName.
    destruct (nameToID c !! ToLower (TrimSpace tok)) eqn:Hfound; [done|].
    intros [= <-]. cbn. split; [done|]. right. by right.
Qed.

(** Whether and to what a token resolves does not depend on the order of
    the map iteration. *)
Lemma resolveToken_range (range range' : RangeOrder) (owner repo : string)
    (c : cachedLabels) (tok : string) (r : Z * ResolvedLabel) :
  resolveToken range owner repo c tok = inr r →
  resolveToken range' owner repo c tok = inr r.
Proof.
  unfold resolveToken.
  destruct (decide (TrimSpace tok = "")) as [|Hne]; [done|].
  destruct (ParseInt (TrimSpace tok)) as [n|]; [done|].
  by destruct (lookupByName (nameToID c) (TrimSpace tok)).
Qed.

(** A loop that ends without error has appended one result per token. *)
Lemma resolveLoop_success (range : RangeOrder) (owner repo : string)
    (c : cachedLabels) (labels : list string) (labelIDs ids : list Z)
    (resolvedLabels rls : list ResolvedLabel) :
  resolveLoop range owner repo c labels labelIDs resolvedLabels = (ids, rls, None) →
  ∃ results,
    Forall2 (λ tok r, resolveToken range owner repo c tok = inr r) labels results ∧
    ids = labelIDs ++ results.*1 ∧ rls = resolvedLabels ++ results.*2.
Proof.
  revert labelIDs resolvedLabels.
  induction labels as [|tok labels IH]; intros labelIDs resolvedLabels.
  - intros [= <- <-]. exists []. by rewrite !app_nil_r.
  - cbn [resolveLoop].
    destruct (resolveToken range owner repo c tok) as [e|[id rl]] eqn:Htok; [done|].
    intros (results & Hall & -> & ->)%IH. exists ((id, rl) :: results).
    split; [by constructor|]. by rewrite <- !app_assoc.
Qed.

(** The loop over a concatenation is the loop over the second list run
    from where the loop over the first one ends. *)
Lemma resolveLoop_app (range : RangeOrder) (owner repo : string)
    (c : cachedLabels) (labels1 labels2 : list string) (labelIDs : list Z)
    (resolvedLabels : list ResolvedLabel) :
  resolveLoop range owner repo c (labels1 ++ labels2) labelIDs resolvedLabels
  = match resolveLoop range owner repo c labels1 labelIDs resolvedLabels with
    | (ids, rls, None) => resolveLoop range owner repo c labels2 ids rls
    | failed => failed
    end.
Proof.
  revert labelIDs resolvedLabels.
  induction labels1 as [|tok labels1 IH]; intros labelIDs resolvedLabels; [done|].
  cbn [app resolveLoop].
  by destruct (resolveToken range owner repo c tok) as [e|[id rl]].
Qed.

Lemma resolveLoop_prefix (range : RangeOrder) (owner repo : string)
    (c : cachedLabels) (labels : list string) (labelIDs ids : list Z)
    (resolvedLabels rls : list ResolvedLabel) :
  resolveLoop range owner repo c labels [] [] = (ids, rls, None) →
  resolveLoop range owner repo c labels labelIDs resolvedLabels
  = (labelIDs ++ ids, resolvedLabels ++ rls, None).
Proof.
  intros (results & Hall & -> & ->)%resolveLoop_success.
  by rewrite (resolveLoop_all range owner repo c labels results).
Qed.

(** X5: whenever [ResolveLabelIDs] returns without error, the two slices
    are aligned with the input: they have its length, the ID of the
    [ResolvedLabel] at an index is the ID at that index, and no display name
    is empty. *)
Theorem X5_results_aligned (client : Client) (range : RangeOrder)
    (p p' : labelResolverImpl) (owner repo : string) (labels : list string)
    (ids : list Z) (rls : list ResolvedLabel) :
  ResolveLabelIDs client range p owner repo labels = ((ids, rls, None), p') →
  length ids = length labels ∧ ID <$> rls = ids ∧ Forall (λ rl, Name rl ≠ "") rls.
Proof.
  unfold ResolveLabelIDs.
  destruct (fetchRepositoryLabels client p owner repo) as [[err|c] p1]; [done|].
  cbn [resolveFetched]. intros [= Hloop _].
  apply resolveLoop_success in Hloop as (results & Hall & -> & ->).
  cbn [app]. split; [|split].
  - rewrite length_fmap. symmetry. by eapply Forall2_length.
  - induction Hall as [|tok [id rl] labels results Htok _ IH]; [done|].
    cbn [fmap list_fmap fst snd]. apply resolveToken_entry in Htok as [-> _]. by f_equal.
  - induction Hall as [|tok [id rl] labels results Htok _ IH]; [constructor|].
    cbn [fmap list_fmap snd]. constructor; [|done]. by eapply resolveToken_entry.
Qed.

(** X6: the call fails fast: when the catalog is fetched or cached, the
    tokens before a token resolve and that token does not, the call returns
    the error of that token, which carries the trimmed token, whatever
    tokens follow it. *)
Theorem X6_first_error (client : Client) (range : RangeOrder)
    (p p' : labelResolverImpl) (owner repo : string) (c : cachedLabels)
    (pre post : list string) (tok : string) (e : LabelResolutionError) :
  fetchRepositoryLabels client p owner repo = (inr c, p') →
  Forall (λ t, ∃ r, resolveToken range owner repo c t = inr r) pre →
  resolveToken range owner repo c tok = inl e →
  ResolveLabelIDs client range p owner repo (pre ++ tok :: post)
  = (([], [], Some (ResolutionError e)), p') ∧
  Input e = TrimSpace tok.
Proof.
  intros Hfetch Hpre Htok. split; [|by eapply resolveToken_error].
  rewrite (ResolveLabelIDs_fetched _ _ _ _ _ _ _ _ Hfetch). cbn [resolveFetched].
  by rewrite (resolveLoop_first_error range owner repo c pre post tok e).
Qed.

(** X7: a token that parses as an integer not above zero is refused with
    the reason [ID must be positive] and without suggestions, whatever the
    catalog holds (a label named like the token is not looked up). *)
Theorem X7_nonpositive_ID (client : Client) (range : RangeOrder)
    (p p' : labelResolverImpl) (owner repo : string) (c : cachedLabels)
    (pre post : list string) (tok : string) (n : Z) :
  fetchRepositoryLabels client p owner repo = (inr c, p') →
  Forall (λ t, ∃ r, resolveToken range owner repo c t = inr r) pre →
  ParseInt (TrimSpace tok) = Some n → n ≤ 0 →
  ResolveLabelIDs client range p owner repo (pre ++ tok :: post)
  = (([], [],
      Some (ResolutionError
              {| Input := TrimSpace tok; Reason := "ID must be positive";
                 Suggestions := [] |})),
     p').
Proof.
  intros Hfetch Hpre Hparse Hn.
  rewrite (ResolveLabelIDs_fetched _ _ _ _ _ _ _ _ Hfetch). cbn [resolveFetched].
  rewrite (resolveLoop_first_error range owner repo c pre post tok
             (NewResolutionError (TrimSpace tok) "ID must be positive" [])); [done..|].
  unfold resolveToken. rewrite decide_False by (by eapply ParseInt_nonempty).
  by rewrite Hparse, decide_True.
Qed.

(** X8: a failed fetch comes before any look at the tokens: whatever the
    tokens are (none, an empty one, a non-positive ID), the call returns the
    error of the forge behind the two prefixes, caches nothing, and a later
    call sends a request again. *)
Theorem X8_fetch_failure (client client' : Client) (range range' : RangeOrder)
    (p : labelResolverImpl) (owner repo : string) (labels labels' : list string)
    (err : string) :
  cache p !! cacheKey owner repo = None → client owner repo = inl err →
  let '(result, p') := ResolveLabelIDs client range p owner repo labels in
  result = ([], [],
            Some (Errorf ("failed to fetch repository labels: failed to list labels: "
                          +:+ err))) ∧
  cache p' = cache p ∧ GetCacheSize p' = GetCacheSize p ∧
  apiCalls p' = apiCalls p ++ [(owner, repo)] ∧
  apiCalls (snd (ResolveLabelIDs client' range' p' owner repo labels'))
  = apiCalls p' ++ [(owner, repo)].
Proof.
  intros Hmiss Herr.
  rewrite (ResolveLabelIDs_fetch_error client range p owner repo labels err Hmiss Herr).
  split; [done|]. split; [done|]. split; [done|]. split; [done|].
  unfold ResolveLabelIDs, fetchRepositoryLabels. cbn [cache apiCalls]. rewrite Hmiss.
  by destruct (client' owner repo).
Qed.

(** X9: once a catalog is cached, the forge is not asked again: a call
    resolves against the cached catalog whatever labels the forge holds by
    then, and leaves the resolver as it is. *)
Theorem X9_cached_catalog_used (client client' : Client) (range range' : RangeOrder)
    (p : labelResolverImpl) (owner repo : string) (labels labels' : list string)
    (fetched : list Label) :
  cache p !! cacheKey owner repo = None → client owner repo = inr fetched →
  let p' := snd (ResolveLabelIDs client range p owner repo labels) in
  ResolveLabelIDs client' range' p' owner repo labels'
  = (resolveLoop range' owner repo (buildLabelMaps fetched) labels' [] [], p').
Proof.
  intros Hmiss Hok.
  rewrite (ResolveLabelIDs_fetched _ _ _ _ _ _ _ _
             (fetchRepositoryLabels_miss client p owner repo fetched Hmiss Hok)).
  cbn [snd].
  by rewrite (ResolveLabelIDs_fetched _ _ _ _ _ _ _ _
                (fetchRepositoryLabels_hit client' _ owner repo (buildLabelMaps fetched)
                   (lookup_insert_eq _ _ _))).
Qed.

(** X10: after [ClearCache] the next call for a repository asks the forge
    again and resolves against the labels it answers with; the cache then
    holds that repository alone. *)
Theorem X10_ClearCache_refetches (client : Client) (range : RangeOrder)
    (p : labelResolverImpl) (owner repo : string) (labels : list string)
    (fetched : list Label) :
  client owner repo = inr fetched →
  let '(result, p') := ResolveLabelIDs client range (ClearCache p) owner repo labels in
  result = resolveLoop range owner repo (buildLabelMaps fetched) labels [] [] ∧
  cache p' = {[ cacheKey owner repo := buildLabelMaps fetched ]} ∧
  apiCalls p' = apiCalls p ++ [(owner, repo)] ∧
  GetCacheSize p' = 1%nat.
Proof.
  intros Hok.
  rewrite (ResolveLabelIDs_fetched _ _ _ _ _ _ _ _
             (fetchRepositoryLabels_miss client (ClearCache p) owner repo fetched
                (lookup_empty _) Hok)).
  cbn [resolveFetched ClearCache cache apiCalls].
  split; [done|]. split; [apply insert_empty|]. split; [done|].
  unfold GetCacheSize. cbn [cache]. by rewrite insert_empty, map_size_singleton.
Qed.

(** X11: [GetCacheSize] counts the repositories cached: a call adds one
    when it had to fetch and the forge answered, and changes nothing
    otherwise. *)
Theorem X11_GetCacheSize_step (client : Client) (range : RangeOrder)
    (p : labelResolverImpl) (owner repo : string) (labels : list string) :
  GetCacheSize (snd (ResolveLabelIDs client range p owner repo labels))
  = (GetCacheSize p +
     match cache p !! cacheKey owner repo, client owner repo with
     | None, inr _ => 1
     | _, _ => 0
     end)%nat.
Proof.
  unfold ResolveLabelIDs, fetchRepositoryLabels, GetCacheSize.
  destruct (cache p !! cacheKey owner repo) as [cached|] eqn:Hc; cbn [snd cache].
  - lia.
  - destruct (client owner repo) as [err|fetched]; cbn [snd cache]; [lia|].
    rewrite map_size_insert_None by done. lia.
Qed.

(** X12: resolving two lists one after the other and resolving their
    concatenation at once give the same: when both calls succeed, the call
    on the concatenation succeeds with the concatenated results and sends
    the same requests. *)
Theorem X12_batch_is_sequence (client client' : Client) (range range' : RangeOrder)
    (p p1 p2 : labelResolverImpl) (owner repo : string) (labels1 labels2 : list string)
    (ids1 ids2 : list Z) (rls1 rls2 : list ResolvedLabel) :
  ResolveLabelIDs client range p owner repo labels1 = ((ids1, rls1, None), p1) →
  ResolveLabelIDs client' range' p1 owner repo labels2 = ((ids2, rls2, None), p2) →
  ResolveLabelIDs client range p owner repo (labels1 ++ labels2)
  = ((ids1 ++ ids2, rls1 ++ rls2, None), p1) ∧ p2 = p1.
Proof.
  unfold ResolveLabelIDs at 1 3.
  destruct (fetchRepositoryLabels client p owner repo) as [[err|c] p1'] eqn:Hfetch; [done|].
  cbn [resolveFetched]. intros [= Hloop1 <-].
  assert (Hcached : cache p1' !! cacheKey owner repo = Some c).
  { revert Hfetch. unfold fetchRepositoryLabels.
    destruct (cache p !! cacheKey owner repo) as [cached|] eqn:Hc.
    - by intros [= <- <-].
    - destruct (client owner repo); [done|]. intros [= <- <-]. apply lookup_insert_eq. }
  rewrite (ResolveLabelIDs_fetched _ _ _ _ _ _ _ _
             (fetchRepositoryLabels_hit client' p1' owner repo c Hcached)).
  cbn [resolveFetched]. intros [= Hloop2 <-]. split; [|done].
  rewrite resolveLoop_app, Hloop1.
  apply resolveLoop_success in Hloop2 as (results & Hall & -> & ->).
  rewrite (resolveLoop_all range owner repo c labels2 results); [done|].
  eapply Forall2_impl; [done|]. intros tok r. apply resolveToken_range.
Qed.

End ResolverProperties.

(** Two tokens, a name and an ID, against the catalog of the example. *)
Lemma X5_results_aligned_witness :
  ∃ ids rls p',
    ResolveLabelIDs (H := asciiOnly) (forgeWith readyLabels) rangeDefault NewLabelResolver
      "goern" "forgejo-mcp" ["Bug"; "47"] = ((ids, rls, None), p') ∧
    (length ids = length ["Bug"; "47"] ∧ ID <$> rls = ids ∧
     Forall (λ rl, Name rl ≠ "") rls).
Proof.
  eexists _, _, _. split; [vm_compute; reflexivity|].
  eapply (X5_results_aligned (H := asciiOnly) (forgeWith readyLabels) rangeDefault
            NewLabelResolver _ "goern" "forgejo-mcp" ["Bug"; "47"]).
  vm_compute. reflexivity.
Defined.

(** The second of three tokens names no label. *)
Lemma X6_first_error_witness :
  ∃ e p',
    ResolveLabelIDs (H := asciiOnly) (forgeWith readyLabels) rangeDefault NewLabelResolver
      "goern" "forgejo-mcp" (["bug"] ++ " nope " :: ["47"])
    = (([], [], Some (ResolutionError e)), p') ∧
    Input e = TrimSpace (H := asciiOnly) " nope ".
Proof.
  eexists _, _.
  eapply (X6_first_error (H := asciiOnly) (forgeWith readyLabels) rangeDefault
            NewLabelResolver _ "goern" "forgejo-mcp" _ ["bug"] ["47"] " nope ").
  - vm_compute. reflexivity.
  - repeat constructor. eexists. vm_compute. reflexivity.
  - vm_compute. reflexivity.
Defined.

(** The token [-3], after a token that resolves. *)
Lemma X7_nonpositive_ID_witness :
  ∃ p',
    ResolveLabelIDs (H := asciiOnly) (forgeWith readyLabels) rangeDefault NewLabelResolver
      "goern" "forgejo-mcp" (["bug"] ++ "-3" :: ["47"])
    = (([], [],
        Some (ResolutionError
                {| Input := TrimSpace (H := asciiOnly) "-3";
                   Reason := "ID must be positive"; Suggestions := [] |})),
       p').
Proof.
  eexists.
  eapply (X7_nonpositive_ID (H := asciiOnly) (forgeWith readyLabels) rangeDefault
            NewLabelResolver _ "goern" "forgejo-mcp" _ ["bug"] ["47"] "-3" (-3)).
  - vm_compute. reflexivity.
  - repeat constructor. eexists. vm_compute. reflexivity.
  - vm_compute. reflexivity.
  - lia.
Defined.

(** The forge is down at the first call, and asked again at the second. *)
Lemma X8_fetch_failure_witness :
  let '(result, p') :=
    ResolveLabelIDs (H := asciiOnly) (λ _ _, inl "503 Service Unavailable") rangeDefault
      NewLabelResolver "goern" "forgejo-mcp" [""; "-3"] in
  result = ([], [],
            Some (Errorf ("failed to fetch repository labels: failed to list labels: "
                          +:+ "503 Service Unavailable"))) ∧
  cache p' = cache NewLabelResolver ∧ GetCacheSize p' = GetCacheSize NewLabelResolver ∧
  apiCalls p' = apiCalls NewLabelResolver ++ [("goern", "forgejo-mcp")] ∧
  apiCalls (snd (ResolveLabelIDs (H := asciiOnly) (forgeWith readyLabels) rangeDefault p'
                   "goern" "forgejo-mcp" ["bug"]))
  = apiCalls p' ++ [("goern", "forgejo-mcp")].
Proof.
  apply (X8_fetch_failure (H := asciiOnly) (λ _ _, inl "503 Service Unavailable")
           (forgeWith readyLabels) rangeDefault rangeDefault NewLabelResolver
           "goern" "forgejo-mcp" [""; "-3"] ["bug"] "503 Service Unavailable");
    reflexivity.
Defined.

(** The forge answers the first call and is down at the second. *)
Lemma X9_cached_catalog_used_witness :
  let p' := snd (ResolveLabelIDs (H := asciiOnly) (forgeWith readyLabels) rangeDefault
                   NewLabelResolver "goern" "forgejo-mcp" ["bug"]) in
  ResolveLabelIDs (H := asciiOnly) (λ _ _, inl "503 Service Unavailable") rangeDefault p'
    "goern" "forgejo-mcp" ["47"]
  = (resolveLoop (H := asciiOnly) rangeDefault "goern" "forgejo-mcp"
       (buildLabelMaps (H := asciiOnly) readyLabels) ["47"] [] [], p').
Proof.
  apply (X9_cached_catalog_used (H := asciiOnly) (forgeWith readyLabels)
           (λ _ _, inl "503 Service Unavailable") rangeDefault rangeDefault
           NewLabelResolver "goern" "forgejo-mcp" ["bug"] ["47"] readyLabels);
    reflexivity.
Defined.

(** A resolver that has cached an empty catalog is cleared; the forge then
    answers with the catalog of the example. *)
Lemma X10_ClearCache_refetches_witness :
  let p := snd (ResolveLabelIDs (H := asciiOnly) (forgeWith []) rangeDefault
                  NewLabelResolver "goern" "forgejo-mcp" []) in
  let '(result, p') :=
    ResolveLabelIDs (H := asciiOnly) (forgeWith readyLabels) rangeDefault (ClearCache p)
      "goern" "forgejo-mcp" ["bug"] in
  result = resolveLoop (H := asciiOnly) rangeDefault "goern" "forgejo-mcp"
             (buildLabelMaps (H := asciiOnly) readyLabels) ["bug"] [] [] ∧
  cache p' = {[ cacheKey "goern" "forgejo-mcp" := buildLabelMaps (H := asciiOnly) readyLabels ]} ∧
  apiCalls p' = apiCalls p ++ [("goern", "forgejo-mcp")] ∧
  GetCacheSize p' = 1%nat.
Proof.
  intros p.
  apply (X10_ClearCache_refetches (H := asciiOnly) (forgeWith readyLabels) rangeDefault p
           "goern" "forgejo-mcp" ["bug"] readyLabels).
  reflexivity.
Defined.

(** One token, then another, and the two at once. *)
Lemma X12_batch_is_sequence_witness :
  ∃ ids1 rls1 p1 ids2 rls2 p2,
    ResolveLabelIDs (H := asciiOnly) (forgeWith readyLabels) rangeDefault NewLabelResolver
      "goern" "forgejo-mcp" ["bug"] = ((ids1, rls1, None), p1) ∧
    ResolveLabelIDs (H := asciiOnly) (forgeWith readyLabels) rangeDefault p1
      "goern" "forgejo-mcp" ["47"] = ((ids2, rls2, None), p2) ∧
    (ResolveLabelIDs (H := asciiOnly) (forgeWith readyLabels) rangeDefault NewLabelResolver
       "goern" "forgejo-mcp" (["bug"] ++ ["47"])
     = ((ids1 ++ ids2, rls1 ++ rls2, None), p1) ∧ p2 = p1).
Proof.
  eexists _, _, _, _, _, _. split; [vm_compute; reflexivity|].
  split; [vm_compute; reflexivity|].
  eapply (X12_batch_is_sequence (H := asciiOnly) (forgeWith readyLabels)
            (forgeWith readyLabels) rangeDefault rangeDefault NewLabelResolver _ _
            "goern" "forgejo-mcp" ["bug"] ["47"]);
    vm_compute; reflexivity.
Defined.

(** ** The order of the map iteration *)

Section OrderProperties.
Context `{GoUnicode}.

Lemma getSuggestions_length (range range' : RangeOrder) (m : gmap string Z)
    (input : string) :
  range_valid range → range_valid range' →
  length (getSuggestions range m input) = length (getSuggestions range' m input).
Proof.
  intros Hrange Hrange'. rewrite !getSuggestions_take, !length_take.
  by rewrite (getSuggestions_Permutation range m input Hrange),
             (getSuggestions_Permutation range' m input Hrange').
Qed.

Lemma resolveToken_ranges (range range' : RangeOrder) (owner repo : string)
    (c : cachedLabels) (tok : string) :
  range_valid range → range_valid range' →
  match resolveToken range owner repo c tok, resolveToken range' owner repo c tok with
  | inr r, inr r' => r = r'
  | inl e, inl e' =>
      Input e = Input e' ∧ Reason e = Reason e' ∧
      length (Suggestions e) = length (Suggestions e')
  | _, _ => False
  end.
Proof.
  intros Hrange Hrange'. unfold resolveToken.
  destruct (decide (TrimSpace tok = "")) as [|Hne]; [done|].
  destruct (ParseInt (TrimSpace tok)) as [id|].
  - destruct (decide (id ≤ 0)) as [|Hpos]; [done|].
    by destruct (decide (findNameByID (idToName c) id ≠ "")).
  - destruct (lookupByName (nameToID c) (TrimSpace tok)); [done|].
    cbn [NewResolutionError Input Reason Suggestions].
    split; [done|]. split; [done|]. by apply getSuggestions_length.
Qed.

Lemma resolveLoop_ranges (range range' : RangeOrder) (owner repo : string)
    (c : cachedLabels) (labels : list string) (labelIDs : list Z)
    (resolvedLabels : list ResolvedLabel) :
  range_valid range → range_valid range' →
  same_but_suggestions (resolveLoop range owner repo c labels labelIDs resolvedLabels)
                       (resolveLoop range' owner repo c labels labelIDs resolvedLabels).
Proof.
  intros Hrange Hrange'. revert labelIDs resolvedLabels.
  induction labels as [|tok labels IH]; intros labelIDs resolvedLabels; [done|].
  cbn [resolveLoop].
  pose proof (resolveToken_ranges range range' owner repo c tok Hrange Hrange') as Htok.
  destruct (resolveToken range owner repo c tok) as [e|[id rl]],
           (resolveToken range' owner repo c tok) as [e'|[id' rl']]; try done.
  injection Htok as <- <-. apply IH.
Qed.

(** X18: the order in which Go iterates over the map of names shows in
    the suggestions only: two runs of a call from the same resolver against
    the same forge leave the same resolver and return the same, except for
    which suggestions (of equally many) the error of a token that is not
    found carries, and in what order. *)
Theorem X18_iteration_order (client : Client) (range range' : RangeOrder)
    (p : labelResolverImpl) (owner repo : string) (labels : list string) :
  range_valid range → range_valid range' →
  let '(r, p1) := ResolveLabelIDs client range p owner repo labels in
  let '(r', p1') := ResolveLabelIDs client range' p owner repo labels in
  p1' = p1 ∧ same_but_suggestions r r'.
Proof.
  intros Hrange Hrange'. unfold ResolveLabelIDs.
  destruct (fetchRepositoryLabels client p owner repo) as [[err|c] p1]; [done|].
  split; [done|]. cbn [resolveFetched]. by apply resolveLoop_ranges.
Qed.

End OrderProperties.

(** The token [ready] names no label of the catalog of the example and is
    part of three names: the two orders give the three suggestions, each
    in its order. *)
Lemma X18_iteration_order_witness :
  let '(r, p1) :=
    ResolveLabelIDs (H := asciiOnly) (forgeWith readyLabels) rangeDefault NewLabelResolver
      "goern" "forgejo-mcp" ["bug"; "ready"] in
  let '(r', p1') :=
    ResolveLabelIDs (H := asciiOnly) (forgeWith readyLabels) rangeReversed NewLabelResolver
      "goern" "forgejo-mcp" ["bug"; "ready"] in
  (p1' = p1 ∧ same_but_suggestions r r') ∧ r ≠ r'.
Proof.
  pose proof (X18_iteration_order (H := asciiOnly) (forgeWith readyLabels) rangeDefault
                rangeReversed NewLabelResolver "goern" "forgejo-mcp" ["bug"; "ready"]
                ltac:(by intros ?) ltac:(intros ?; apply reverse_Permutation)) as Horder.
  destruct (ResolveLabelIDs (forgeWith readyLabels) rangeDefault NewLabelResolver
              "goern" "forgejo-mcp" ["bug"; "ready"]) as [r p1] eqn:Hr.
  destruct (ResolveLabelIDs (forgeWith readyLabels) rangeReversed NewLabelResolver
              "goern" "forgejo-mcp" ["bug"; "ready"]) as [r' p1'] eqn:Hr'.
  split; [done|].
  vm_compute in Hr, Hr'. injection Hr as <- _. injection Hr' as <- _. discriminate.
Defined.

(** ** The text of an error *)

Lemma substring_of_refl (s : string) : substring_of s s.
Proof. exists "", "". by rewrite string_app_nil_r. Qed.

Lemma substring_of_app_l (a s t : string) : substring_of a s → substring_of a (t +:+ s).
Proof.
  intros (pre & post & ->). exists (t +:+ pre), post. by rewrite !string_app_assoc.
Qed.

Lemma substring_of_app_r (a s t : string) : substring_of a s → substring_of a (s +:+ t).
Proof.
  intros (pre & post & ->). exists pre, (post +:+ t). by rewrite !string_app_assoc.
Qed.

Lemma substring_of_concat (sep s : string) (l : list string) :
  s ∈ l → substring_of s (String.concat sep l).
Proof.
  induction l as [|x l IH]; [by intros ?%elem_of_nil|].
  intros [->|Hin]%elem_of_cons.
  - destruct l as [|y l]; [apply substring_of_refl|].
    change (String.concat sep (x :: y :: l)) with (x +:+ sep +:+ String.concat sep (y :: l)).
    apply substring_of_app_r, substring_of_refl.
  - destruct l as [|y l]; [by apply elem_of_nil in Hin|].
    change (String.concat sep (x :: y :: l)) with (x +:+ sep +:+ String.concat sep (y :: l)).
    by apply substring_of_app_l, substring_of_app_l, IH.
Qed.

(** X13: the rendered message of a resolution error holds the offending
    input and the reason, and, when there are suggestions, the words [Did
    you mean] and every suggestion. *)
Theorem X13_Error_mentions (e : LabelResolutionError) :
  substring_of (Input e) (Error e) ∧
  substring_of (Reason e) (Error e) ∧
  ∀ s, s ∈ Suggestions e →
    substring_of "Did you mean" (Error e) ∧ substring_of s (Error e).
Proof.
  unfold Error. rewrite formatSuggestions_concat.
  destruct (decide (0 < length (Suggestions e))%nat) as [Hsome|Hnone].
  - split; [|split].
    + apply substring_of_app_l, substring_of_app_r, substring_of_refl.
    + do 3 apply substring_of_app_l. apply substring_of_app_r, substring_of_refl.
    + intros s Hs. split.
      * do 4 apply substring_of_app_l. by exists ". ", (": " +:+ String.concat ", " (Suggestions e) +:+ "?").
      * do 5 apply substring_of_app_l. by apply substring_of_app_r, substring_of_concat.
  - split; [|split].
    + apply substring_of_app_l, substring_of_app_r, substring_of_refl.
    + do 3 apply substring_of_app_l. apply substring_of_refl.
    + intros s Hs. destruct (Suggestions e); [by apply elem_of_nil in Hs|]. cbn in Hnone. lia.
Qed.


(** ** More on the goroutines *)

Section RaceProperties.
Context `{GoUnicode}.
Import Concurrent.

Lemma sum_list_with_update {A} (f : A → nat) (l : list A) (i : nat) (x y : A) :
  l !! i = Some x →
  (sum_list_with f (<[i := y]> l) + f x = sum_list_with f l + f y)%nat.
Proof.
  revert i. induction l as [|z l IH]; intros i Hi; [done|].
  destruct i as [|i]; simpl in *.
  - injection Hi as ->. set (t := sum_list_with f l). lia.
  - specialize (IH i Hi). set (t := sum_list_with f l) in *.
    set (u := sum_list_with f _) in *. lia.
Qed.

Lemma sum_list_with_pos {A} (f : A → nat) (l : list A) :
  sum_list_with f l ≠ 0%nat → ∃ i x, l !! i = Some x ∧ f x ≠ 0%nat.
Proof.
  induction l as [|z l IH]; [done|]. cbn [sum_list_with]. intros Hsum.
  destruct (decide (f z = 0%nat)) as [Hz|Hz].
  - destruct IH as (i & x & Hi & Hx); [lia|]. by exists (S i), x.
  - by exists 0%nat, z.
Qed.

Lemma sum_list_with_zero {A} (f : A → nat) (l : list A) (i : nat) (x : A) :
  sum_list_with f l = 0%nat → l !! i = Some x → f x = 0%nat.
Proof.
  revert i. induction l as [|z l IH]; intros i Hsum Hi; [done|].
  cbn [sum_list_with] in Hsum. destruct i as [|i]; cbn in Hi.
  - injection Hi as ->. lia.
  - apply (IH i); [lia|done].
Qed.

Lemma sum_list_with_ge {A} (f : A → nat) (l : list A) (i : nat) (x : A) :
  l !! i = Some x → (f x ≤ sum_list_with f l)%nat.
Proof.
  revert i. induction l as [|z l IH]; intros i Hi; [done|].
  destruct i as [|i]; simpl in *.
  - injection Hi as ->. lia.
  - specialize (IH i Hi). lia.
Qed.

(** The steps, listed: the goroutine that steps, where it goes, and what
    becomes of the resolver and of the requests. *)
Lemma step_cases (s s' : state) (i : nat) (resp : string + list Label) :
  step s i resp = Some s' →
  ∃ g l p' log',
    goroutines s !! i = Some g ∧
    s' = {| resolver := p'; forge := log';
            goroutines := <[i := at_pc g l]> (goroutines s) |} ∧
    let p := resolver s in
    let key := key_of g in
    match g_pc g with
    | AtRLock =>
        writer (mu p) = false ∧ l = AtReadCheck ∧ log' = forge s ∧
        p' = with_mu p {| writer := false; readers := S (readers (mu p)) |}
    | AtReadCheck =>
        p' = p ∧ log' = forge s ∧
        match cache p !! key with
        | Some cached => l = AtRUnlockHit cached
        | None => l = AtRUnlockMiss
        end
    | AtRUnlockHit cached =>
        l = AtLoop (inr cached) ∧ log' = forge s ∧
        p' = with_mu p {| writer := writer (mu p); readers := pred (readers (mu p)) |}
    | AtRUnlockMiss =>
        l = AtLock ∧ log' = forge s ∧
        p' = with_mu p {| writer := writer (mu p); readers := pred (readers (mu p)) |}
    | AtLock =>
        writer (mu p) = false ∧ readers (mu p) = 0%nat ∧ l = AtRecheck ∧
        log' = forge s ∧ p' = with_mu p {| writer := true; readers := 0 |}
    | AtRecheck =>
        p' = p ∧ log' = forge s ∧
        match cache p !! key with
        | Some cached => l = AtUnlock (inr cached)
        | None => l = AtListRepoLabels
        end
    | AtListRepoLabels =>
        p' = p ∧
        match resp with
        | inl err =>
            l = AtUnlock (inl (Errorf ("failed to list labels: " +:+ err))) ∧
            log' = forge s ++ [{| req_owner := g_owner g; req_repo := g_repo g;
                                  req_ok := false |}]
        | inr labels =>
            l = AtStore labels ∧
            log' = forge s ++ [{| req_owner := g_owner g; req_repo := g_repo g;
                                  req_ok := true |}]
        end
    | AtStore labels =>
        l = AtUnlock (inr (buildLabelMaps labels)) ∧ log' = forge s ∧
        p' = {| cache := <[key := buildLabelMaps labels]> (cache p); mu := mu p |}
    | AtUnlock fetched =>
        l = AtLoop fetched ∧ log' = forge s ∧
        p' = with_mu p {| writer := false; readers := readers (mu p) |}
    | AtLoop fetched =>
        l = Done (resolveFetched (g_range g) (g_owner g) (g_repo g) (g_labels g) fetched) ∧
        log' = forge s ∧ p' = p
    | Done _ => False
    end.
Proof.
  intros Hstep. unfold step in Hstep.
  destruct (goroutines s !! i) as [g|] eqn:Hg; [|done]. cbn [mbind option_bind] in Hstep.
  exists g. unfold key_of.
  destruct (g_pc g) eqn:Hpc.
  - destruct (writer (mu (resolver s))) eqn:Hw; [done|]. injection Hstep as <-.
    by eexists _, _, _.
  - destruct (cache (resolver s) !! _) eqn:Hc; injection Hstep as <-;
      eexists _, _, _; (split; [done|]); (split; [reflexivity|]); by cbv zeta.
  - injection Hstep as <-. by eexists _, _, _.
  - injection Hstep as <-. by eexists _, _, _.
  - destruct (writer (mu (resolver s))) eqn:Hw; [done|].
    destruct (Nat.eqb _ _) eqn:Hr; [|done]. apply Nat.eqb_eq in Hr.
    injection Hstep as <-. by eexists _, _, _.
  - destruct (cache (resolver s) !! _) eqn:Hc; injection Hstep as <-;
      eexists _, _, _; (split; [done|]); (split; [reflexivity|]); by cbv zeta.
  - destruct resp; injection Hstep as <-; by eexists _, _, _.
  - injection Hstep as <-. by eexists _, _, _.
  - injection Hstep as <-. by eexists _, _, _.
  - injection Hstep as <-. by eexists _, _, _.
  - done.
Qed.

Lemma readers_after (gs : list goroutine) (i : nat) (g : goroutine) (l : pc) :
  gs !! i = Some g →
  sum_list_with (λ g, if in_read g then 1 else 0)%nat (<[i := at_pc g l]> gs)
  = (sum_list_with (λ g, if in_read g then 1 else 0)%nat gs
     + (if in_read (at_pc g l) then 1 else 0) - (if in_read g then 1 else 0))%nat ∧
  ((if in_read g then 1 else 0)
   ≤ sum_list_with (λ g, if in_read g then 1 else 0)%nat gs)%nat.
Proof.
  intros Hg.
  pose proof (sum_list_with_update (λ g, if in_read g then 1 else 0)%nat
                gs i g (at_pc g l) Hg) as Hsum.
  pose proof (sum_list_with_ge (λ g, if in_read g then 1 else 0)%nat gs i g Hg) as Hge.
  cbn beta in Hsum, Hge.
  set (total := sum_list_with _ gs) in *. set (total' := sum_list_with _ _) in *.
  destruct (in_read g), (in_read (at_pc g l)); lia.
Qed.

(** The old holder of the write lock is still there after a step of a
    goroutine that does not hold it. *)
Lemma holder_kept (gs : list goroutine) (i : nat) (g g' : goroutine) :
  gs !! i = Some g → ¬ holds_lock g →
  (∃ k gk, gs !! k = Some gk ∧ holds_lock gk) →
  ∃ k gk, <[i := g']> gs !! k = Some gk ∧ holds_lock gk.
Proof.
  intros Hg Hnl (k & gk & Hk & Hlk). exists k, gk. split; [|done].
  rewrite list_lookup_insert_ne; [done|]. intros ->. rewrite Hg in Hk. by injection Hk as <-.
Qed.

Lemma lock_invariant_start (c0 : gmap string cachedLabels) (gs : list goroutine) :
  Forall (λ g, g_pc g = AtRLock) gs → lock_invariant (start c0 gs).
Proof.
  intros Hgs. constructor; cbn [start resolver mu readers writer goroutines]; [|done..].
  induction Hgs as [|g gs Hg _ IH]; [done|].
  cbn [sum_list_with]. unfold in_read at 1. rewrite Hg. by rewrite <- IH.
Qed.

Ltac settle_readers Hpc Hsum :=
  match type of Hsum with
  | context [in_read (at_pc ?g ?l)] =>
      let Hig := fresh "Hig" in
      let Hil := fresh "Hil" in
      destruct (in_read g) eqn:Hig; destruct (in_read (at_pc g l)) eqn:Hil;
      unfold in_read in Hig, Hil; cbn [at_pc g_pc] in Hil; rewrite ?Hpc in Hig;
      try discriminate Hig; try discriminate Hil; clear Hig Hil
  end.

Lemma lock_invariant_step (s s' : state) (i : nat) (resp : string + list Label) :
  lock_invariant s → step s i resp = Some s' → lock_invariant s'.
Proof.
  intros [Hreaders Hexcl Hholder] (g & l & p' & log' & Hg & -> & Hcase)%step_cases.
  destruct s as [[c m] log gs]. cbn [resolver forge goroutines cache mu] in *.
  destruct (readers_after gs i g l Hg) as [Hsum Hone].
  rewrite <- Hreaders in Hsum, Hone.
  assert (Hnew : <[i := at_pc g l]> gs !! i = Some (at_pc g l))
    by (by apply (goroutines_updated gs i g)).
  assert (Hkept : ¬ holds_lock g → writer m = true →
            ∃ k gk, <[i := at_pc g l]> gs !! k = Some gk ∧ holds_lock gk).
  { intros Hnl Hw. apply (holder_kept gs i g); [done..|by apply Hholder]. }
  unfold holds_lock in Hkept at 1.
  destruct (g_pc g) eqn:Hpc; cbv zeta in Hcase.
  - destruct Hcase as (Hw & -> & -> & ->). settle_readers Hpc Hsum.
    constructor; cbn [resolver mu with_mu readers writer goroutines]; [|done..].
    rewrite Hsum. lia.
  - destruct Hcase as (-> & -> & Hl).
    destruct (c !! key_of g); subst l; settle_readers Hpc Hsum;
      (constructor; cbn [resolver mu readers writer goroutines];
       [rewrite Hsum; lia|done|exact (Hkept (λ x, x))]).
  - destruct Hcase as (-> & -> & ->). settle_readers Hpc Hsum.
    constructor; cbn [resolver mu with_mu readers writer goroutines].
    + rewrite Hsum. lia.
    + intros Hw. by rewrite (Hexcl Hw).
    + exact (Hkept (λ x, x)).
  - destruct Hcase as (-> & -> & ->). settle_readers Hpc Hsum.
    constructor; cbn [resolver mu with_mu readers writer goroutines].
    + rewrite Hsum. lia.
    + intros Hw. by rewrite (Hexcl Hw).
    + exact (Hkept (λ x, x)).
  - destruct Hcase as (Hw & Hr & -> & -> & ->). settle_readers Hpc Hsum.
    constructor; cbn [resolver mu with_mu readers writer goroutines].
    + rewrite Hsum. lia.
    + done.
    + intros _. by exists i, (at_pc g AtRecheck).
  - destruct Hcase as (-> & -> & Hl).
    destruct (c !! key_of g); subst l; settle_readers Hpc Hsum;
      (constructor; cbn [resolver mu readers writer goroutines];
       [rewrite Hsum; lia|done|]);
      intros _; eexists i, _; by split.
  - destruct Hcase as (-> & Hl).
    destruct resp; destruct Hl as [-> _]; settle_readers Hpc Hsum;
      (constructor; cbn [resolver mu readers writer goroutines];
       [rewrite Hsum; lia|done|]);
      intros _; eexists i, _; by split.
  - destruct Hcase as (-> & -> & ->). settle_readers Hpc Hsum.
    constructor; cbn [resolver mu readers writer goroutines]; [rewrite Hsum; lia|done|].
    intros _. by exists i, (at_pc g (AtUnlock (inr (buildLabelMaps labels)))).
  - destruct Hcase as (-> & -> & ->). settle_readers Hpc Hsum.
    constructor; cbn [resolver mu with_mu readers writer goroutines]; [|done..].
    rewrite Hsum. lia.
  - destruct Hcase as (-> & -> & ->). settle_readers Hpc Hsum.
    constructor; cbn [resolver mu readers writer goroutines]; [rewrite Hsum; lia|done|].
    exact (Hkept (λ x, x)).
  - done.
Qed.

Lemma lock_invariant_run (sched : schedule) (s s' : state) :
  lock_invariant s → run s sched = Some s' → lock_invariant s'.
Proof.
  revert s. induction sched as [|[i resp] sched IH]; intros s Hinv Hrun.
  - by injection Hrun as <-.
  - cbn [run] in Hrun. destruct (step s i resp) as [s1|] eqn:Hstep; [|done].
    cbn [mbind option_bind] in Hrun. eapply IH; [|done]. by eapply lock_invariant_step.
Qed.

(** The cache only grows: a step never replaces or removes an entry. *)
Lemma step_cache_grows (c0 : gmap string cachedLabels) (s s' : state) (i : nat)
    (resp : string + list Label) :
  invariant c0 s → step s i resp = Some s' →
  cache (resolver s) ⊆ cache (resolver s').
Proof.
  intros [_ _ Hmissed _ _] (g & l & p' & log' & Hg & -> & Hcase)%step_cases.
  cbn [resolver]. specialize (Hmissed i g Hg). unfold missed in Hmissed.
  destruct (g_pc g) eqn:Hpc; cbv zeta in Hcase;
    try (by destruct Hcase as (_ & _ & ->));
    try (by destruct Hcase as (-> & _)).
  - by destruct Hcase as (_ & _ & _ & ->).
  - by destruct Hcase as (_ & _ & _ & _ & ->).
  - destruct Hcase as (_ & _ & ->). cbn [cache]. by apply insert_subseteq, Hmissed.
  - done.
Qed.

Lemma run_cache_grows (c0 : gmap string cachedLabels) (sched : schedule) (s s' : state) :
  invariant c0 s → run s sched = Some s' → cache (resolver s) ⊆ cache (resolver s').
Proof.
  revert s. induction sched as [|[i resp] sched IH]; intros s Hinv Hrun.
  - by injection Hrun as <-.
  - cbn [run] in Hrun. destruct (step s i resp) as [s1|] eqn:Hstep; [|done].
    cbn [mbind option_bind] in Hrun. etrans; [by eapply step_cache_grows|].
    eapply IH; [|done]. by eapply invariant_step.
Qed.

Lemma result_of_grows (c0 : gmap string cachedLabels) (s s' : state) (g : goroutine)
    (result : list Z * list ResolvedLabel * option error) :
  cache (resolver s) ⊆ cache (resolver s') →
  result_of c0 s g result → result_of c0 s' g result.
Proof.
  intros Hsub [Hfailed|(c & Hc & ->)]; [by left|]. right. exists c. split; [|done].
  by eapply lookup_weaken.
Qed.

Lemma agree_invariant_start (c0 : gmap string cachedLabels) (gs : list goroutine) :
  Forall (λ g, g_pc g = AtRLock) gs → agree_invariant c0 (start c0 gs).
Proof.
  intros Hgs. rewrite Forall_lookup in Hgs. constructor; cbn [start goroutines].
  - intros i g fetched Hg. unfold fetched_by. by rewrite (Hgs i g Hg).
  - intros i g result Hg. by rewrite (Hgs i g Hg).
Qed.

Lemma agree_invariant_step (c0 : gmap string cachedLabels) (s s' : state) (i : nat)
    (resp : string + list Label) :
  invariant c0 s → agree_invariant c0 s → step s i resp = Some s' →
  agree_invariant c0 s'.
Proof.
  intros Hinv [Hfetched Hdone] Hstep.
  pose proof (step_cache_grows c0 s s' i resp Hinv Hstep) as Hsub.
  apply step_cases in Hstep as (g & l & p' & log' & Hg & -> & Hcase).
  cbn [resolver] in Hsub.
  pose proof (λ fetched, Hfetched i g fetched Hg) as Hmine. unfold fetched_by in Hmine.
  constructor; cbn [goroutines resolver].
  - intros j gj fetched Hj Hfj.
    destruct (goroutines_update _ i j g _ gj Hg Hj) as [[-> ->]|[Hne Hj']].
    + change (key_of (at_pc g l)) with (key_of g).
      unfold fetched_by in Hfj. cbn [at_pc g_pc] in Hfj. clear Hj Hdone Hfetched.
      destruct (g_pc g) eqn:Hpc; cbv zeta in Hcase.
      * by destruct Hcase as (_ & -> & _).
      * destruct Hcase as (-> & _ & Hl).
        destruct (cache (resolver s) !! key_of g) eqn:Hc; subst l; [|done].
        by injection Hfj as <-.
      * destruct Hcase as (-> & _ & ->). injection Hfj as <-.
        by apply (Hmine (inr cached)).
      * by destruct Hcase as (-> & _).
      * by destruct Hcase as (_ & _ & -> & _).
      * destruct Hcase as (-> & _ & Hl).
        destruct (cache (resolver s) !! key_of g) eqn:Hc; subst l; [|done].
        by injection Hfj as <-.
      * destruct Hcase as (-> & Hl). destruct resp; destruct Hl as [-> _]; [|done].
        injection Hfj as <-. split; [|by eexists].
        destruct Hinv as [_ _ Hmissed _ Hcached].
        specialize (Hmissed i g Hg). unfold missed in Hmissed. rewrite Hpc in Hmissed.
        destruct (c0 !! key_of g) as [c|] eqn:Hc0; [|done].
        destruct (Hcached (key_of g)) as [[c' Hc'] _]; [by eexists|].
        by rewrite Hmissed in Hc'.
      * destruct Hcase as (-> & _ & ->). injection Hfj as <-. cbn [cache].
        apply lookup_insert_eq.
      * destruct Hcase as (-> & _ & ->). injection Hfj as <-.
        specialize (Hmine fetched0 eq_refl). by destruct fetched0.
      * by destruct Hcase as (-> & _).
      * done.
    + specialize (Hfetched j gj fetched Hj' Hfj). destruct fetched as [err|c]; [done|].
      by eapply lookup_weaken.
  - intros j gj result Hj Hpcj.
    destruct (goroutines_update _ i j g _ gj Hg Hj) as [[-> ->]|[Hne Hj']].
    + cbn [at_pc g_pc] in Hpcj. subst l. clear Hj Hdone Hfetched.
      destruct (g_pc g) eqn:Hpc; cbv zeta in Hcase.
      * by destruct Hcase as (_ & [=] & _).
      * destruct Hcase as (_ & _ & Hl). by destruct (cache (resolver s) !! key_of g).
      * by destruct Hcase as ([=] & _).
      * by destruct Hcase as ([=] & _).
      * by destruct Hcase as (_ & _ & [=] & _).
      * destruct Hcase as (_ & _ & Hl). by destruct (cache (resolver s) !! key_of g).
      * destruct Hcase as (_ & Hl). by destruct resp; destruct Hl as [[=] _].
      * by destruct Hcase as ([=] & _).
      * by destruct Hcase as ([=] & _).
      * destruct Hcase as ([= ->] & _ & ->). specialize (Hmine fetched eq_refl).
        destruct fetched as [err|c]; cbn [resolveFetched].
        -- destruct Hmine as [Hc0 [msg ->]]. left. split; [done|]. by exists msg.
        -- right. by exists c.
      * done.
    + eapply result_of_grows; [done|]. by eapply Hdone.
Qed.

Lemma agree_invariant_run (c0 : gmap string cachedLabels) (sched : schedule)
    (s s' : state) :
  invariant c0 s → agree_invariant c0 s → run s sched = Some s' →
  agree_invariant c0 s'.
Proof.
  revert s. induction sched as [|[i resp] sched IH]; intros s Hinv Hagree Hrun.
  - by injection Hrun as <-.
  - cbn [run] in Hrun. destruct (step s i resp) as [s1|] eqn:Hstep; [|done].
    cbn [mbind option_bind] in Hrun.
    eapply IH; [by eapply invariant_step|by eapply agree_invariant_step|done].
Qed.

(** Every step brings the goroutine that takes it closer to its return. *)
Lemma step_steps_left (s s' : state) (i : nat) (resp : string + list Label) :
  step s i resp = Some s' →
  (S (sum_list_with steps_left (goroutines s'))
   ≤ sum_list_with steps_left (goroutines s))%nat.
Proof.
  intros (g & l & p' & log' & Hg & -> & Hcase)%step_cases. cbn [goroutines].
  pose proof (sum_list_with_update steps_left (goroutines s) i g (at_pc g l) Hg) as Hsum.
  assert (Hless : (steps_left (at_pc g l) < steps_left g)%nat).
  { unfold steps_left. cbn [at_pc g_pc]. clear Hsum.
    destruct (g_pc g) eqn:Hpc; cbv zeta in Hcase.
    - destruct Hcase as (_ & -> & _). lia.
    - destruct Hcase as (_ & _ & Hl).
      destruct (cache (resolver s) !! key_of g); subst l; lia.
    - destruct Hcase as (-> & _). lia.
    - destruct Hcase as (-> & _). lia.
    - destruct Hcase as (_ & _ & -> & _). lia.
    - destruct Hcase as (_ & _ & Hl).
      destruct (cache (resolver s) !! key_of g); subst l; lia.
    - destruct Hcase as (_ & Hl). destruct resp; destruct Hl as [-> _]; lia.
    - destruct Hcase as (-> & _). lia.
    - destruct Hcase as (-> & _). lia.
    - destruct Hcase as (-> & _). lia.
    - done. }
  lia.
Qed.

Lemma run_steps_left (sched : schedule) (s s' : state) :
  run s sched = Some s' →
  (length sched + sum_list_with steps_left (goroutines s')
   ≤ sum_list_with steps_left (goroutines s))%nat.
Proof.
  revert s. induction sched as [|[i resp] sched IH]; intros s Hrun.
  - injection Hrun as <-. cbn [length]. lia.
  - cbn [run] in Hrun. destruct (step s i resp) as [s1|] eqn:Hstep; [|done].
    cbn [mbind option_bind] in Hrun. specialize (IH s1 Hrun).
    apply step_steps_left in Hstep. cbn [length]. lia.
Qed.

Lemma steps_left_start (c0 : gmap string cachedLabels) (gs : list goroutine) :
  Forall (λ g, g_pc g = AtRLock) gs →
  sum_list_with steps_left (goroutines (start c0 gs)) = (9 * length gs)%nat.
Proof.
  cbn [start goroutines]. induction 1 as [|g gs Hg _ IH]; [done|].
  cbn [sum_list_with length]. unfold steps_left at 1. rewrite Hg, IH. lia.
Qed.

(** When a goroutine can take a step. *)
Lemma step_enabled (s : state) (i : nat) (g : goroutine) (resp : string + list Label) :
  goroutines s !! i = Some g →
  match g_pc g with
  | AtRLock => writer (mu (resolver s)) = false
  | AtLock => writer (mu (resolver s)) = false ∧ readers (mu (resolver s)) = 0%nat
  | Done _ => False
  | _ => True
  end →
  is_Some (step s i resp).
Proof.
  intros Hg Hpc. unfold step. rewrite Hg. cbn [mbind option_bind].
  destruct (g_pc g); try done.
  - by rewrite Hpc.
  - by destruct (cache (resolver s) !! _).
  - destruct Hpc as [-> ->]. done.
  - by destruct (cache (resolver s) !! _).
  - by destruct resp.
Qed.

(** X14: the mutex excludes: in every state that the goroutines can reach,
    a goroutine that holds the write lock (from the second look at the
    cache to [Unlock], the store into the map included) is the only one
    that does, and no goroutine is then between [RLock] and [RUnlock]: the
    map is never read or written while it is written. *)
Theorem X14_writer_excludes (c0 : gmap string cachedLabels) (gs : list goroutine)
    (sched : schedule) (s : state) (i j : nat) (gi gj : goroutine) :
  Forall (λ g, g_pc g = AtRLock) gs →
  run (start c0 gs) sched = Some s →
  goroutines s !! i = Some gi → goroutines s !! j = Some gj →
  holds_lock gi →
  (holds_lock gj → i = j) ∧ in_read gj = false.
Proof.
  intros Hgs Hrun Hi Hj Hlock.
  pose proof (invariant_run c0 sched _ s (invariant_start c0 gs Hgs) Hrun)
    as [Hwriter Hmutex _ _ _].
  pose proof (lock_invariant_run sched _ s (lock_invariant_start c0 gs Hgs) Hrun)
    as [Hreaders Hexcl _].
  split; [intros Hlock'; by eapply Hmutex|].
  specialize (Hexcl (Hwriter i gi Hi Hlock)). rewrite Hreaders in Hexcl.
  pose proof (sum_list_with_zero _ _ j gj Hexcl Hj) as Hzero. cbv beta in Hzero.
  by destruct (in_read gj).
Qed.

(** X15: the goroutines never block each other for good: in every state
    that they can reach, all calls have returned or some goroutine can take
    its next step, whatever the forge answers; and that goroutine is not
    one at [RLock] while another waits at [Lock] (Go holds back new readers
    as long as a writer waits). *)
Theorem X15_no_deadlock (c0 : gmap string cachedLabels) (gs : list goroutine)
    (sched : schedule) (s : state) :
  Forall (λ g, g_pc g = AtRLock) gs →
  run (start c0 gs) sched = Some s →
  Forall (λ g, returned g = true) (goroutines s) ∨
  ∃ i g, goroutines s !! i = Some g ∧
         (g_pc g = AtRLock → Forall (λ g', waits_lock g' = false) (goroutines s)) ∧
         ∀ resp, is_Some (step s i resp).
Proof.
  intros Hgs Hrun.
  pose proof (lock_invariant_run sched _ s (lock_invariant_start c0 gs Hgs) Hrun)
    as [Hreaders Hexcl Hholder].
  destruct (decide (Forall (λ g, returned g = true) (goroutines s))) as [|Hsome];
    [by left|right].
  destruct (writer (mu (resolver s))) eqn:Hw.
  - destruct (Hholder eq_refl) as (i & g & Hg & Hlock). exists i, g.
    unfold holds_lock in Hlock. split; [done|]. split.
    + intros Hpc. by rewrite Hpc in Hlock.
    + intros resp. apply (step_enabled s i g resp Hg). by destruct (g_pc g).
  - apply not_Forall_Exists in Hsome; [|intros g; apply _].
    apply Exists_exists in Hsome as (g & Hin & Hg).
    apply list_elem_of_lookup in Hin as [i Hi]. unfold returned in Hg.
    cbv beta in Hg. unfold compose in Hg.
    destruct (decide (readers (mu (resolver s)) = 0%nat)) as [Hr|Hr].
    + destruct (decide (Forall (λ g', waits_lock g' = false) (goroutines s)))
        as [Hnone|Hwaits].
      * exists i, g. split; [done|]. split; [done|].
        intros resp. apply (step_enabled s i g resp Hi). by destruct (g_pc g).
      * apply not_Forall_Exists in Hwaits; [|intros g'; apply _].
        apply Exists_exists in Hwaits as (g' & Hin' & Hg').
        apply list_elem_of_lookup in Hin' as [k Hk]. unfold waits_lock in Hg'.
        cbv beta in Hg'. unfold compose in Hg'.
        exists k, g'. split; [done|]. split.
        -- intros Hpc. by rewrite Hpc in Hg'.
        -- intros resp. apply (step_enabled s k g' resp Hk). by destruct (g_pc g').
    + rewrite Hreaders in Hr.
      apply sum_list_with_pos in Hr as (k & gk & Hk & Hread).
      exists k, gk. unfold in_read in Hread. split; [done|]. split.
      * intros Hpc. by rewrite Hpc in Hread.
      * intros resp. apply (step_enabled s k gk resp Hk). by destruct (g_pc gk).
Qed.

(** X16: concurrent callers agree: in every state that the goroutines can
    reach, the result of a call that has returned is the error of a failed
    fetch, and then for a repository that was not cached at the start, or
    what the loop over its tokens gives with the catalog that the cache
    holds for its repository; an entry of the cache, once there, is never
    replaced.  So all calls for one repository whose fetch did not fail
    resolve against one catalog. *)
Theorem X16_callers_agree (c0 : gmap string cachedLabels) (gs : list goroutine)
    (sched : schedule) (s : state) (i : nat) (g : goroutine)
    (result : list Z * list ResolvedLabel * option error) :
  Forall (λ g, g_pc g = AtRLock) gs →
  run (start c0 gs) sched = Some s →
  goroutines s !! i = Some g → g_pc g = Done result →
  result_of c0 s g result ∧
  ∀ sched' s', run s sched' = Some s' →
    cache (resolver s) ⊆ cache (resolver s') ∧ result_of c0 s' g result.
Proof.
  intros Hgs Hrun Hi Hpc.
  pose proof (invariant_run c0 sched _ s (invariant_start c0 gs Hgs) Hrun) as Hinv.
  pose proof (agree_invariant_run c0 sched _ s (invariant_start c0 gs Hgs)
                (agree_invariant_start c0 gs Hgs) Hrun) as [_ Hdone].
  specialize (Hdone i g result Hi Hpc). split; [done|].
  intros sched' s' Hrun'.
  pose proof (run_cache_grows c0 sched' s s' Hinv Hrun') as Hsub.
  split; [done|]. by eapply result_of_grows.
Qed.

(** X17: no call spins: a goroutine takes at most nine steps from its
    [RLock] to its return, so [n] calls are over after at most [9 * n]
    steps, however they interleave. *)
Theorem X17_steps_bounded (c0 : gmap string cachedLabels) (gs : list goroutine)
    (sched : schedule) (s : state) :
  Forall (λ g, g_pc g = AtRLock) gs →
  run (start c0 gs) sched = Some s →
  (length sched + sum_list_with steps_left (goroutines s) ≤ 9 * length gs)%nat.
Proof.
  intros Hgs Hrun. rewrite <- (steps_left_start c0 gs Hgs). by apply run_steps_left.
Qed.

End RaceProperties.

(** The race of two callers at the moment when the first has taken the
    write lock and the second waits for it. *)
Lemma X14_writer_excludes_witness :
  ∃ s gi gj,
    Concurrent.run (H := asciiOnly) (Concurrent.start ∅ twoCallers)
      (take 7 (raceSchedule readyLabels)) = Some s ∧
    Concurrent.goroutines s !! 0%nat = Some gi ∧
    Concurrent.goroutines s !! 1%nat = Some gj ∧
    holds_lock gi ∧
    ((holds_lock gj → 0%nat = 1%nat) ∧ in_read gj = false).
Proof.
  eexists _, _, _. split; [vm_compute; reflexivity|].
  split; [reflexivity|]. split; [reflexivity|]. split; [exact I|].
  eapply (X14_writer_excludes (H := asciiOnly) ∅ twoCallers
            (take 7 (raceSchedule readyLabels)) _ 0 1).
  - repeat constructor.
  - vm_compute. reflexivity.
  - reflexivity.
  - reflexivity.
  - exact I.
Defined.

(** The same moment: the second caller is blocked, the first can go on. *)
Lemma X15_no_deadlock_witness :
  ∃ s,
    Concurrent.run (H := asciiOnly) (Concurrent.start ∅ twoCallers)
      (take 7 (raceSchedule readyLabels)) = Some s ∧
    Concurrent.step (H := asciiOnly) s 1 (inr readyLabels) = None ∧
    (Forall (λ g, returned g = true) (Concurrent.goroutines s) ∨
     ∃ i g, Concurrent.goroutines s !! i = Some g ∧
            (Concurrent.g_pc g = Concurrent.AtRLock →
             Forall (λ g', waits_lock g' = false) (Concurrent.goroutines s)) ∧
            ∀ resp, is_Some (Concurrent.step (H := asciiOnly) s i resp)).
Proof.
  eexists. split; [vm_compute; reflexivity|]. split; [vm_compute; reflexivity|].
  apply (X15_no_deadlock (H := asciiOnly) ∅ twoCallers (take 7 (raceSchedule readyLabels))).
  - repeat constructor.
  - vm_compute. reflexivity.
Defined.

(** The race of two callers, run to the end: the caller that found the
    entry under the write lock has resolved against the catalog that the
    other one fetched. *)
Lemma X16_callers_agree_witness :
  ∃ s g result,
    Concurrent.run (H := asciiOnly) (Concurrent.start ∅ twoCallers)
      (raceSchedule readyLabels) = Some s ∧
    Concurrent.goroutines s !! 1%nat = Some g ∧
    Concurrent.g_pc g = Concurrent.Done result ∧
    (result_of (H := asciiOnly) ∅ s g result ∧
     ∀ sched' s', Concurrent.run (H := asciiOnly) s sched' = Some s' →
       Concurrent.cache (Concurrent.resolver s) ⊆ Concurrent.cache (Concurrent.resolver s') ∧
       result_of (H := asciiOnly) ∅ s' g result).
Proof.
  eexists _, _, _. split; [vm_compute; reflexivity|].
  split; [reflexivity|]. split; [reflexivity|].
  eapply (X16_callers_agree (H := asciiOnly) ∅ twoCallers (raceSchedule readyLabels) _ 1).
  - repeat constructor.
  - vm_compute. reflexivity.
  - reflexivity.
  - reflexivity.
Defined.

(** The race of two callers takes sixteen steps. *)
Lemma X17_steps_bounded_witness :
  ∃ s,
    Concurrent.run (H := asciiOnly) (Concurrent.start ∅ twoCallers)
      (raceSchedule readyLabels) = Some s ∧
    (length (raceSchedule readyLabels)
     + sum_list_with steps_left (Concurrent.goroutines s) ≤ 9 * length twoCallers)%nat.
Proof.
  eexists. split; [vm_compute; reflexivity|].
  apply (X17_steps_bounded (H := asciiOnly) ∅ twoCallers (raceSchedule readyLabels)).
  - repeat constructor.
  - vm_compute. reflexivity.
Defined.
